(** * nuxt-i18n helpers (src/helpers/utils.js): a shallow embedding

    The helpers of [utils.js] work on untyped configuration data, so the
    embedding starts with a small universe of JavaScript values and the
    handful of language operations the helpers use (property reads,
    truthiness, [typeof x === 'string'], string conversion, array methods,
    and the [RegExp] built-in).  A call completes normally or throws.

    Scope of the value universe: [undefined], [null], booleans,
    integer-valued numbers, strings of code units below 256, dense arrays
    and plain objects holding own data properties.  Functions, symbols and
    getters are no configuration data; the built-in prototypes are as the
    language defines them.  A property read walks the prototype chain: what
    it finds there on a plain object is described by [object_member], and
    what the helpers do with such a built-in is followed as far as the
    language fixes it. *)

From stdpp Require Import gmap strings list fin_maps pretty.
From Stdlib Require Import ZArith Ascii.

#[local] Open Scope string_scope.
#[local] Set Warnings "-register-all".

(** ** Values *)

Inductive value : Type :=
| VUndef
| VNull
| VBool (b : bool)
| VNum (n : Z)
| VStr (s : string)
| VArr (l : list value)
| VObj (o : gmap string value).

(** What can be thrown: the two built-in errors the helpers can provoke,
    and a value raised by code outside this file (a store's action
    handler rejecting its promise). *)
Inductive error : Type :=
| TypeError
| SyntaxError
| Raised (reason : value).

(** A call completes with a value, throws, or leaves the fragment of the
    language that this development gives a meaning to (part of the [RegExp]
    pattern language, identity of objects, and a built-in found through a
    prototype where a helper goes on with it as with data, or where the
    editions of the language differ on what is found). *)
Inductive completion (A : Type) : Type :=
| Normal (a : A)
| Throw (e : error)
| Unsupported.

Arguments Normal {A} a.
Arguments Throw {A} e.
Arguments Unsupported {A}.

#[export] Instance completion_ret : MRet completion := fun A a => Normal a.

#[export] Instance completion_bind : MBind completion := fun A B f m =>
  match m with
  | Normal a => f a
  | Throw e => Throw e
  | Unsupported => Unsupported
  end.

(** [typeof v === 'string'] *)
Definition is_string (v : value) : bool :=
  match v with VStr _ => true | _ => false end.

(** [v === false] *)
Definition is_false (v : value) : bool :=
  match v with VBool false => true | _ => false end.

(** [v === null] *)
Definition is_null (v : value) : bool :=
  match v with VNull => true | _ => false end.

Definition nullish (v : value) : bool :=
  match v with VUndef | VNull => true | _ => false end.

(** ToBoolean *)
Definition truthy (v : value) : bool :=
  match v with
  | VUndef | VNull => false
  | VBool b => b
  | VNum n => negb (n =? 0)%Z
  | VStr s => negb (String.eqb s "")
  | VArr _ | VObj _ => true
  end.

(** A default parameter value replaces [undefined] only. *)
Definition default_param (v d : value) : value :=
  match v with VUndef => d | _ => v end.

(** Number::toString on an integer-valued number.  Every integer below
    2^53 in magnitude is a number and prints as its decimal expansion.  From
    2^53 on the numbers are the multiples of their unit in the last place
    with a mantissa of 53 bits, and a number prints with the fewest digits
    that still read back as the same number: [inside_rounding a v] says that
    [v] rounds to [a] (ties go to the even mantissa; below a power of two
    the numbers lie twice as dense).  A payload that is no such multiple
    stands for no JavaScript number. *)
Definition inside_rounding (a v : Z) : bool :=
  let ulp := (2 ^ (Z.log2 a - 52))%Z in
  let m := (a / ulp)%Z in
  let below := (if m =? 2 ^ 52 then ulp else 2 * ulp)%Z in
  if Z.even m
  then ((4 * a - below <=? 4 * v) && (4 * v <=? 4 * a + 2 * ulp))%Z
  else ((4 * a - below <? 4 * v) && (4 * v <? 4 * a + 2 * ulp))%Z.

(** The value of the digits that print [a]: the multiple of the largest
    power of ten that rounds to [a]; of two such multiples the closer one,
    and of two equally close ones the one with the even last digit. *)
Fixpoint shortest (fuel : nat) (a scale : Z) : Z :=
  match fuel with
  | O => a
  | S fuel1 =>
      let s := (a / scale)%Z in
      let v1 := (s * scale)%Z in
      let v2 := ((s + 1) * scale)%Z in
      match inside_rounding a v1, inside_rounding a v2 with
      | true, true =>
          if (a - v1 <? v2 - a)%Z then v1
          else if (v2 - a <? a - v1)%Z then v2
          else if Z.even s then v1 else v2
      | true, false => v1
      | false, true => v2
      | false, false => shortest fuel1 a (scale / 10)%Z
      end
  end.

Fixpoint drop_zeros (ds : list ascii) : list ascii :=
  match ds with
  | c :: ds1 => if Ascii.eqb c "0" then drop_zeros ds1 else ds
  | [] => []
  end.

(** The digits of [v] without the zeros at their end. *)
Definition significant (v : Z) : list ascii :=
  rev (drop_zeros (rev (String.list_ascii_of_string (pretty v)))).

(** Up to 21 digits a number prints in full, beyond in exponent form. *)
Definition number_text (n : Z) : string :=
  let a := Z.abs n in
  if (a <? 2 ^ 53)%Z then pretty n
  else
    let digits := String.length (pretty a) in
    let v := shortest digits a (10 ^ Z.of_nat (digits - 1))%Z in
    let len := String.length (pretty v) in
    let text :=
      if (len <=? 21)%nat then pretty v
      else match significant v with
           | [] => pretty v
           | d :: rest =>
               String d
                 (match rest with
                  | [] => ""
                  | _ => "." ++ String.string_of_list_ascii rest
                  end)
               ++ "e+" ++ pretty (len - 1)%nat
           end in
    if (n <? 0)%Z then "-" ++ text else text.

(** ToString; an array prints as [join(',')], where [undefined] and [null]
    elements print as the empty string. *)
Fixpoint to_string (v : value) : string :=
  match v with
  | VUndef => "undefined"
  | VNull => "null"
  | VBool true => "true"
  | VBool false => "false"
  | VNum n => number_text n
  | VStr s => s
  | VArr l =>
      String.concat ","
        (map (fun x => if nullish x then "" else to_string x) l)
  | VObj _ => "[object Object]"
  end.

(** [Array.prototype.join] for a separator string. *)
Definition join_elems (sep : string) (l : list value) : string :=
  String.concat sep (map (fun x => if nullish x then "" else to_string x) l).

(** ToPropertyKey (there are no symbols). *)
Definition to_key (v : value) : string := to_string v.

(** Reading a canonical array index out of a property key. *)
Definition digit_of (c : ascii) : option nat :=
  let n := nat_of_ascii c in
  if (48 <=? n)%nat && (n <=? 57)%nat then Some (n - 48)%nat else None.

Fixpoint digits_value (acc : nat) (s : list ascii) : option nat :=
  match s with
  | [] => Some acc
  | c :: s' =>
      match digit_of c with
      | Some d => digits_value (10 * acc + d) s'
      | None => None
      end
  end.

Definition index_of_key (k : string) : option nat :=
  match String.list_ascii_of_string k with
  | [] => None
  | cs =>
      match digits_value 0 cs with
      | Some n => if String.eqb (pretty n) k then Some n else None
      | None => None
      end
  end.

(** ** Property reads

    The own property [k] of a value, if it has one: the length and the
    elements of a string or an array, the entries of an object.  Reading
    any property of [undefined] or [null] throws. *)
Definition own_prop (v : value) (k : string) : completion (option value) :=
  match v with
  | VUndef | VNull => Throw TypeError
  | VBool _ | VNum _ => Normal None
  | VStr s =>
      if String.eqb k "length"
      then Normal (Some (VNum (Z.of_nat (String.length s))))
      else match index_of_key k with
           | Some i =>
               Normal (match String.get i s with
                       | Some c => Some (VStr (String c EmptyString))
                       | None => None
                       end)
           | None => Normal None
           end
  | VArr l =>
      if String.eqb k "length"
      then Normal (Some (VNum (Z.of_nat (List.length l))))
      else match index_of_key k with
           | Some i => Normal (l !! i)
           | None => Normal None
           end
  | VObj o => Normal (o !! k)
  end.

(** What a read can find further up the prototype chain: a built-in
    function, known by its [name], or the prototype object itself. *)
Inductive native : Type :=
| NativeFunction (name : string)
| NativeObject.

(** The result of a read: configuration data, or a built-in. *)
Inductive entry : Type :=
| Data (v : value)
| Native (n : native).

(** The properties every object inherits from [Object.prototype]: the
    constructor [Object], ten methods, and the accessor [__proto__], which
    gives the prototype. *)
Definition object_member (k : string) : option native :=
  if String.eqb k "constructor" then Some (NativeFunction "Object")
  else if String.eqb k "__proto__" then Some NativeObject
  else if bool_decide (k ∈ ["hasOwnProperty"; "isPrototypeOf";
                            "propertyIsEnumerable"; "toLocaleString";
                            "toString"; "valueOf";
                            "__defineGetter__"; "__defineSetter__";
                            "__lookupGetter__"; "__lookupSetter__"])
  then Some (NativeFunction k)
  else None.

(** Names that some engines add to [Object.prototype]. *)
Definition engine_member (k : string) : bool :=
  bool_decide (k ∈ ["toSource"; "watch"; "unwatch"]).

(** A key written like an identifier, as the names of all built-in
    properties are. *)
Definition word_char (c : ascii) : bool :=
  let n := nat_of_ascii c in
  ((65 <=? n) && (n <=? 90) || (97 <=? n) && (n <=? 122)
   || (48 <=? n) && (n <=? 57) || (n =? 95) || (n =? 36))%nat.

Definition name_like (k : string) : bool :=
  match String.list_ascii_of_string k with
  | [] => false
  | c :: cs =>
      match digit_of c with
      | Some _ => false
      | None => forallb word_char (c :: cs)
      end
  end.

(** The keys that the helpers read by name.  None of them names a property
    of the prototypes of booleans, numbers and objects; [length] apart,
    which a string or an array has as its own, none names one of the
    prototypes of strings and arrays either. *)
Definition helper_key (k : string) : bool :=
  bool_decide (k ∈ ["length"; "code"; "domain"; "chunkName"; "name"; "path";
                    "headers"; "host"; "i18n"; "forwardedHost"; "locales";
                    "syncLocale"; "syncMessages"; "moduleName"]).

(** A read that finds no own property goes to the prototype.  On a plain
    object that is [Object.prototype].  The prototypes of strings, numbers,
    booleans and arrays differ between the editions of the language, so
    only a key that cannot name a built-in is read there. *)
Definition inherited (v : value) (k : string) : completion entry :=
  match v with
  | VObj _ =>
      match object_member k with
      | Some n => Normal (Native n)
      | None => if engine_member k then Unsupported else Normal (Data VUndef)
      end
  | _ =>
      if negb (name_like k) || helper_key k then Normal (Data VUndef)
      else Unsupported
  end.

(** [v[k]] *)
Definition lookup (v : value) (k : string) : completion entry :=
  o ← own_prop v k;
  match o with
  | Some x => Normal (Data x)
  | None => inherited v k
  end.

(** [v[k]] where the helper goes on with the result as data; the helpers
    never do so with a built-in but in [getPageOptions], which uses
    [lookup]. *)
Definition get_prop (v : value) (k : string) : completion value :=
  e ← lookup v k;
  match e with
  | Data x => Normal x
  | Native _ => Unsupported
  end.

(** ToBoolean and [e === false] on the result of a read; a built-in is an
    object. *)
Definition entry_truthy (e : entry) : bool :=
  match e with Data v => truthy v | Native _ => true end.

Definition entry_is_false (e : entry) : bool :=
  match e with Data v => is_false v | Native _ => false end.

(** The two accessors that every function inherits from
    [Function.prototype] and that throw when read on a built-in function. *)
Definition restricted (k : string) : bool :=
  String.eqb k "caller" || String.eqb k "arguments".

(** [e[k] === false] and [typeof e[k] === 'string'] (with the string).
    A property that data inherits from a built-in prototype is a function
    or an object, so only an own property can be [false] or a string.  A
    built-in function has the own properties [length], a number, and
    [name], a string; everything else it has or inherits is a function or
    an object, but for the two accessors that throw.  Nothing that
    [Object.prototype] has or inherits is [false] or a string. *)
Definition prop_is_false (e : entry) (k : string) : completion bool :=
  match e with
  | Data v =>
      o ← own_prop v k;
      Normal (match o with Some x => is_false x | None => false end)
  | Native (NativeFunction _) =>
      if restricted k then Throw TypeError else Normal false
  | Native NativeObject => Normal false
  end.

Definition prop_string (e : entry) (k : string) : completion (option value) :=
  match e with
  | Data v =>
      o ← own_prop v k;
      Normal (match o with
              | Some x => if is_string x then Some x else None
              | None => None
              end)
  | Native (NativeFunction name) =>
      if restricted k then Throw TypeError
      else if String.eqb k "name" then Normal (Some (VStr name))
      else Normal None
  | Native NativeObject => Normal None
  end.

(** [paths[k] = v] for a string [v] on the object that the literal [{}]
    made: [__proto__] is the accessor of [Object.prototype], whose setter
    ignores a string; every other key becomes an own property. *)
Definition assign (k : string) (v : value) (paths : gmap string value)
    : gmap string value :=
  if String.eqb k "__proto__" then paths else <[k := v]> paths.

(** Running a callback over a list, left to right, stopping at a throw. *)
Fixpoint mapM {A B} (f : A -> completion B) (l : list A) : completion (list B) :=
  match l with
  | [] => Normal []
  | x :: l' => y ← f x; ys ← mapM f l'; Normal (y :: ys)
  end.

Fixpoint filterM {A} (f : A -> completion bool) (l : list A) : completion (list A) :=
  match l with
  | [] => Normal []
  | x :: l' => b ← f x; ys ← filterM f l'; Normal (if b : bool then x :: ys else ys)
  end.

Fixpoint foldM {A S} (f : S -> A -> completion S) (l : list A) (s : S) : completion S :=
  match l with
  | [] => Normal s
  | x :: l' => s' ← f s x; foldM f l' s'
  end.

Fixpoint findM {A} (f : A -> completion bool) (l : list A) : completion (option A) :=
  match l with
  | [] => Normal None
  | x :: l' => b ← f x; if b : bool then Normal (Some x) else findM f l'
  end.

(** The array methods exist on arrays only; calling them on anything else
    is a [TypeError] ("... is not a function", or a read on [undefined]). *)
Definition as_array (v : value) : completion (list value) :=
  match v with
  | VArr l => Normal l
  | _ => Throw TypeError
  end.

(** ** constants.js *)

(** Modelled from the spec: [./constants] is not among the sources; the
    spec calls the two keys the code field and the domain field of a locale
    record and writes them [code] and [domain] in its examples. *)
Definition LOCALE_CODE_KEY : string := "code".

(** Modelled from the spec: see [LOCALE_CODE_KEY]. *)
Definition LOCALE_DOMAIN_KEY : string := "domain".

(** ** getLocaleCodes (utils.js, lines 10-22) *)

Definition getLocaleCodes (locales : value) : completion value :=
  let locales := default_param locales (VArr []) in
  len ← get_prop locales "length";
  if truthy len then
    first ← get_prop locales "0";
    if is_string first then Normal locales
    else
      c ← get_prop first LOCALE_CODE_KEY;
      if is_string c then
        l ← as_array locales;
        codes ← mapM (fun locale => get_prop locale LOCALE_CODE_KEY) l;
        Normal (VArr codes)
      else Normal (VArr [])
  else Normal (VArr []).

(** ** The RegExp built-in

    Both helpers that use a regular expression build its source by string
    interpolation and always pass the flag [i].  The pattern language
    modelled here is: literal characters, [.], the assertions [^] and [$],
    alternation, capturing and non-capturing groups, and the greedy
    quantifier [?].  A pattern that uses anything else of the language
    (classes, escapes, braces, [*] and [+] after an atom, lazy quantifiers,
    look-around, named groups) parses to [Unsupported]; a pattern that
    JavaScript rejects within the modelled fragment throws [SyntaxError].
    Matching follows the backtracking semantics of ECMA-262. *)

Module Re.

Inductive regex : Type :=
| RChar (c : ascii)
| RAny
| RBol
| REol
| REmpty
| RSeq (r1 r2 : regex)
| RAlt (r1 r2 : regex)
| RGroup (i : nat) (r : regex)
| RNonCap (r : regex)
| ROpt (r : regex).

(** *** Parsing a pattern *)

Inductive token : Type :=
| TOpen | TClose | TBar | TQuest | TStar | TPlus
| TDot | TBol | TEol | TOther | TLit (c : ascii).

Definition classify (c : ascii) : token :=
  if Ascii.eqb c "(" then TOpen
  else if Ascii.eqb c ")" then TClose
  else if Ascii.eqb c "|" then TBar
  else if Ascii.eqb c "?" then TQuest
  else if Ascii.eqb c "*" then TStar
  else if Ascii.eqb c "+" then TPlus
  else if Ascii.eqb c "." then TDot
  else if Ascii.eqb c "^" then TBol
  else if Ascii.eqb c "$" then TEol
  else if Ascii.eqb c "[" then TOther
  else if Ascii.eqb c "{" then TOther
  else if Ascii.eqb c "\" then TOther
  else TLit c.

Inductive gkind : Type :=
| GTop
| GCap (i : nat)
| GNon.

(** A group being read: the alternatives already closed by a [|] and the
    terms of the alternative being read, both most recent first. *)
Record frame : Type := Frame {
  f_kind : gkind;
  f_alts : list regex;
  f_terms : list regex
}.

Definition new_frame (k : gkind) : frame := Frame k [] [].

Definition push_term (t : regex) (f : frame) : frame :=
  Frame (f_kind f) (f_alts f) (t :: f_terms f).

Definition mk_seq (ts : list regex) : regex := foldr RSeq REmpty ts.

Fixpoint mk_alt (a : regex) (rest : list regex) : regex :=
  match rest with
  | [] => a
  | b :: rest' => RAlt a (mk_alt b rest')
  end.

Definition close_alt (f : frame) : frame :=
  Frame (f_kind f) (mk_seq (rev (f_terms f)) :: f_alts f) [].

Definition disjunction (f : frame) : regex :=
  match rev (f_alts (close_alt f)) with
  | [] => REmpty
  | a :: rest => mk_alt a rest
  end.

Definition close_group (f : frame) : regex :=
  match f_kind f with
  | GCap i => RGroup i (disjunction f)
  | _ => RNonCap (disjunction f)
  end.

Fixpoint parse (s : list ascii) (ngroups : nat) (cur : frame)
    (stack : list frame) {struct s} : completion (regex * nat) :=
  match s with
  | [] =>
      match stack with
      | [] => Normal (disjunction cur, ngroups)
      | _ :: _ => Throw SyntaxError
      end
  | c :: s1 =>
      match classify c with
      | TOpen =>
          match s1 with
          | q :: s2 =>
              if Ascii.eqb q "?" then
                match s2 with
                | d :: s3 =>
                    if Ascii.eqb d ":" then
                      parse s3 ngroups (new_frame GNon) (cur :: stack)
                    else Unsupported
                | [] => Throw SyntaxError
                end
              else
                parse s1 (S ngroups) (new_frame (GCap (S ngroups)))
                  (cur :: stack)
          | [] => Throw SyntaxError
          end
      | TClose =>
          match stack with
          | [] => Throw SyntaxError
          | parent :: stack1 =>
              parse s1 ngroups (push_term (close_group cur) parent) stack1
          end
      | TBar => parse s1 ngroups (close_alt cur) stack
      | TQuest =>
          match f_terms cur with
          | [] => Throw SyntaxError
          | t :: ts =>
              match t with
              | RBol | REol => Throw SyntaxError
              | ROpt _ => Unsupported
              | _ =>
                  parse s1 ngroups
                    (Frame (f_kind cur) (f_alts cur) (ROpt t :: ts)) stack
              end
          end
      | TStar | TPlus =>
          match f_terms cur with
          | [] => Throw SyntaxError
          | t :: _ =>
              match t with
              | RBol | REol | ROpt _ => Throw SyntaxError
              | _ => Unsupported
              end
          end
      | TDot => parse s1 ngroups (push_term RAny cur) stack
      | TBol => parse s1 ngroups (push_term RBol cur) stack
      | TEol => parse s1 ngroups (push_term REol cur) stack
      | TOther => Unsupported
      | TLit a => parse s1 ngroups (push_term (RChar a) cur) stack
      end
  end.

(** A compiled expression: its syntax tree and its number of capturing
    groups. *)
Record regexp : Type := Regexp {
  re_ast : regex;
  re_groups : nat
}.

(** [new RegExp(source, 'i')] *)
Definition RegExp (source : string) : completion regexp :=
  '(r, n) ← parse (String.list_ascii_of_string source) 0 (new_frame GTop) [];
  Normal (Regexp r n).

(** *** Matching *)

(** Canonicalize under the flag [i]: the upper-case letter, for [a]-[z]
    and for the accented letters U+00E0-U+00FE (U+00F7 is the division
    sign).  The upper case of U+00B5, U+00DF and U+00FF is not a code unit
    below 256, and no other code unit below 256 shares it. *)
Definition canon (c : ascii) : ascii :=
  let n := nat_of_ascii c in
  if ((97 <=? n)%nat && (n <=? 122)%nat)
     || ((224 <=? n)%nat && (n <=? 254)%nat && negb (n =? 247)%nat)
  then ascii_of_nat (n - 32) else c.

Definition is_line_terminator (c : ascii) : bool :=
  let n := nat_of_ascii c in (n =? 10)%nat || (n =? 13)%nat.

(** A match state: the end index, the input that is left, and the
    captures made so far. *)
Record mstate : Type := MState {
  m_pos : nat;
  m_rest : list ascii;
  m_caps : gmap nat string
}.

Definition advance (st : mstate) (rest1 : list ascii) : mstate :=
  MState (S (m_pos st)) rest1 (m_caps st).

Fixpoint groups_of (r : regex) : list nat :=
  match r with
  | RSeq a b | RAlt a b => groups_of a ++ groups_of b
  | RGroup i a => i :: groups_of a
  | RNonCap a | ROpt a => groups_of a
  | _ => []
  end.

Definition clear_caps (gs : list nat) (st : mstate) : mstate :=
  MState (m_pos st) (m_rest st) (foldr delete (m_caps st) gs).

Definition set_cap (i : nat) (from to : mstate) : mstate :=
  MState (m_pos to) (m_rest to)
    (<[i := String.string_of_list_ascii
              (take (m_pos to - m_pos from) (m_rest from))]> (m_caps to)).

Definition cont : Type := mstate -> option mstate.

(** The matcher of a (sub)pattern, given the state and the continuation
    that matches what follows; [None] is failure. *)
Fixpoint rmatch (r : regex) (x : mstate) (k : cont) {struct r} : option mstate :=
  match r with
  | RChar c =>
      match m_rest x with
      | a :: rest1 =>
          if Ascii.eqb (canon a) (canon c) then k (advance x rest1) else None
      | [] => None
      end
  | RAny =>
      match m_rest x with
      | a :: rest1 =>
          if is_line_terminator a then None else k (advance x rest1)
      | [] => None
      end
  | RBol => if (m_pos x =? 0)%nat then k x else None
  | REol => match m_rest x with [] => k x | _ :: _ => None end
  | REmpty => k x
  | RSeq a b => rmatch a x (fun y => rmatch b y k)
  | RAlt a b =>
      match rmatch a x k with
      | Some z => Some z
      | None => rmatch b x k
      end
  | RGroup i a => rmatch a x (fun y => k (set_cap i x y))
  | RNonCap a => rmatch a x k
  | ROpt a =>
      (* RepeatMatcher with min 0 and max 1: one iteration that must
         consume input, entered with the captures of [a] reset; else
         none *)
      match rmatch a (clear_caps (groups_of a) x)
              (fun y => if (m_pos y =? m_pos x)%nat then None else k y) with
      | Some z => Some z
      | None => k x
      end
  end.

(** The first start index, from [pos] on, at which the pattern matches. *)
Fixpoint exec_from (r : regex) (pos : nat) (rest : list ascii)
    : option (nat * mstate) :=
  match rmatch r (MState pos rest ∅) Some with
  | Some z => Some (pos, z)
  | None =>
      match rest with
      | [] => None
      | _ :: rest1 => exec_from r (S pos) rest1
      end
  end.

Definition capture_value (caps : gmap nat string) (i : nat) : value :=
  match caps !! i with
  | Some s => VStr s
  | None => VUndef
  end.

(** The result array of [exec]: the matched text, then one entry per
    capturing group, [undefined] for a group that took no part. *)
Definition match_array (re : regexp) (input : list ascii) (start : nat)
    (z : mstate) : list value :=
  VStr (String.string_of_list_ascii
          (take (m_pos z - start) (drop start input)))
  :: map (capture_value (m_caps z)) (seq 1 (re_groups re)).

(** [input.match(re)] for an expression without the flag [g]. *)
Definition exec (re : regexp) (input : string) : option (list value) :=
  let cs := String.list_ascii_of_string input in
  match exec_from (re_ast re) 0 cs with
  | Some (start, z) => Some (match_array re cs start z)
  | None => None
  end.

(** [input.replace(re, '')]: the first match is cut out. *)
Definition replace_empty (re : regexp) (input : string) : string :=
  let cs := String.list_ascii_of_string input in
  match exec_from (re_ast re) 0 cs with
  | Some (start, z) =>
      String.string_of_list_ascii (take start cs ++ m_rest z)
  | None => input
  end.

End Re.

(** String methods exist on strings only. *)
Definition as_string (v : value) : completion string :=
  match v with
  | VStr s => Normal s
  | _ => Throw TypeError
  end.

(** ** getPageOptions (utils.js, lines 35-68) *)

(** The key under which the page is looked up (lines 40-41). *)
Definition page_key (route : value) (pagesDir : value) : completion value :=
  pattern ← Re.RegExp (to_string pagesDir ++ "/");
  cn ← get_prop route "chunkName";
  if truthy cn then
    s ← as_string cn;
    Normal (VStr (Re.replace_empty pattern s))
  else get_prop route "name".

(** The callback of [forEach] (lines 57-65), as a step on the [paths]
    object. *)
Definition set_path (pageOptions : entry) (defaultLocale : value)
    (paths : gmap string value) (locale : value)
    : completion (gmap string value) :=
  own ← prop_string pageOptions (to_key locale);
  match own with
  | Some p => Normal (assign (to_key locale) p paths)
  | None =>
      dflt ← prop_string pageOptions (to_key defaultLocale);
      match dflt with
      | Some p => Normal (assign (to_key locale) p paths)
      | None => Normal paths
      end
  end.

Definition mk_options (locales : value) (paths : gmap string value) : value :=
  VObj (<["locales" := locales]> (<["paths" := VObj paths]> ∅)).

Definition getPageOptions (route pages locales pagesDir defaultLocale : value)
    : completion value :=
  codes ← getLocaleCodes locales;
  chunkName ← page_key route pagesDir;
  pageOptions ← lookup pages (to_key chunkName);
  (* Routing disabled *)
  if entry_is_false pageOptions then Normal (VBool false)
  (* Skip if no page options defined *)
  else if negb (entry_truthy pageOptions) then Normal (mk_options codes ∅)
  else
    (* Remove disabled locales from page options *)
    l ← as_array codes;
    kept ← filterM (fun locale =>
                      b ← prop_is_false pageOptions (to_key locale);
                      Normal (negb b)) l;
    (* Construct paths object *)
    paths ← foldM (set_path pageOptions defaultLocale) kept ∅;
    Normal (mk_options (VArr kept) paths).

(** ** getLocaleFromRoute (utils.js, lines 80-100) *)

(** [matches && matches.length > 1 ? matches[1] : (fall through)] *)
Definition first_group (matches : option (list value)) : value :=
  match matches with
  | Some arr =>
      if (1 <? List.length arr)%nat then default VUndef (arr !! 1%nat)
      else VNull
  | None => VNull
  end.

Definition getLocaleFromRoute
    (route routesNameSeparator defaultLocaleRouteNameSuffix locales : value)
    : completion value :=
  let route := default_param route (VObj ∅) in
  let routesNameSeparator := default_param routesNameSeparator (VStr "") in
  let defaultLocaleRouteNameSuffix :=
    default_param defaultLocaleRouteNameSuffix (VStr "") in
  let locales := default_param locales (VArr []) in
  codes ← getLocaleCodes locales;
  l ← as_array codes;
  let localesPattern := "(" ++ join_elems "|" l ++ ")" in
  let defaultSuffixPattern :=
    "(?:" ++ to_string routesNameSeparator
          ++ to_string defaultLocaleRouteNameSuffix ++ ")?" in
  name ← get_prop route "name";
  (* Extract from route name *)
  if truthy name then
    regexp ← Re.RegExp (to_string routesNameSeparator ++ localesPattern
                          ++ defaultSuffixPattern ++ "$");
    s ← as_string name;
    Normal (first_group (Re.exec regexp s))
  else
    path ← get_prop route "path";
    if truthy path then
      (* Extract from path *)
      regexp ← Re.RegExp ("^/" ++ localesPattern ++ "/");
      s ← as_string path;
      Normal (first_group (Re.exec regexp s))
    else Normal VNull.

(** ** getForwarded, getHostname, getLocaleDomain (utils.js, lines 106-135) *)

(** [a === b].  Two primitives are compared by type and value.  Identity of
    objects and arrays is not part of the value universe, so comparing two
    of them is left outside the model. *)
Definition strict_eq (a b : value) : completion bool :=
  match a, b with
  | VUndef, VUndef | VNull, VNull => Normal true
  | VBool x, VBool y => Normal (Bool.eqb x y)
  | VNum x, VNum y => Normal (x =? y)%Z
  | VStr x, VStr y => Normal (String.eqb x y)
  | (VArr _ | VObj _), (VArr _ | VObj _) => Unsupported
  | _, _ => Normal false
  end.

(** [s.split(c)] for a one-character separator. *)
Fixpoint split_on (c : ascii) (s : list ascii) (cur : list ascii)
    : list (list ascii) :=
  match s with
  | [] => [rev cur]
  | a :: s1 =>
      if Ascii.eqb a c then rev cur :: split_on c s1 []
      else split_on c s1 (a :: cur)
  end.

Definition split (c : ascii) (s : string) : value :=
  VArr (map (fun p => VStr (String.string_of_list_ascii p))
            (split_on c (String.list_ascii_of_string s) [])).

(** The globals the three functions read: [process.browser],
    [window.location.href], [req] and [app]. *)
Record context : Type := Context {
  process_browser : bool;
  window_location_href : string;
  req : value;
  app : value
}.

Definition getForwarded (ctx : context) : completion value :=
  if process_browser ctx then
    get_prop (split "/" (window_location_href ctx)) "2"
  else
    headers ← get_prop (req ctx) "headers";
    fwd ← get_prop headers "x-forwarded-host";
    if truthy fwd then
      headers ← get_prop (req ctx) "headers";
      get_prop headers "x-forwarded-host"
    else
      headers ← get_prop (req ctx) "headers";
      get_prop headers "host".

Definition getHostname (ctx : context) : completion value :=
  if process_browser ctx then
    get_prop (split "/" (window_location_href ctx)) "2"
  else
    headers ← get_prop (req ctx) "headers";
    get_prop headers "host".

Definition getLocaleDomain (ctx : context) : completion value :=
  i18n ← get_prop (app ctx) "i18n";
  fh ← get_prop i18n "forwardedHost";
  hostname ← (if truthy fh then getForwarded ctx else getHostname ctx);
  if truthy hostname then
    i18n ← get_prop (app ctx) "i18n";
    locales ← get_prop i18n "locales";
    l ← as_array locales;
    localeDomain ← findM (fun l =>
                            d ← get_prop l LOCALE_DOMAIN_KEY;
                            strict_eq d hostname) l;
    match localeDomain with
    | Some ld =>
        if truthy ld then get_prop ld LOCALE_CODE_KEY else Normal VNull
    | None => Normal VNull
    end
  else Normal VNull.

(** ** syncVuex (utils.js, lines 143-152) *)

Section Store.

(** The state behind the store; the synchronizer never looks at it. *)
Context {S : Type}.

(** [store.dispatch(type, payload)] runs an action handler on the state
    of the store and returns a promise; every dispatch is awaited at
    once, so the promise is taken as already settled: [Normal] when
    fulfilled, [Throw] when rejected. *)
Record store_t : Type := Store {
  dispatch : string -> value -> S -> completion value * S
}.

(** What a run has done so far: the dispatches issued, oldest first, and
    the state of the store. *)
Record world : Type := World {
  w_log : list (string * value);
  w_state : S
}.

(** The body of an [async] function: it acts on the world, and the
    promise it returns is fulfilled ([Normal]) or rejected ([Throw]). *)
Definition async (A : Type) : Type := world -> completion A * world.

#[local] Instance async_ret : MRet async := fun A a w => (Normal a, w).

#[local] Instance async_bind : MBind async := fun A B f m w =>
  match m w with
  | (Normal a, w1) => f a w1
  | (Throw e, w1) => (Throw e, w1)
  | (Unsupported, w1) => (Unsupported, w1)
  end.

Definition lift {A} (c : completion A) : async A := fun w => (c, w).

(** [await store.dispatch(type, payload)] *)
Definition await_dispatch (st : store_t) (type : string) (payload : value)
    : async value := fun w =>
  let '(r, s) := dispatch st type payload (w_state w) in
  (r, World (w_log w ++ [(type, payload)]) s).

(** [x !== null && vuex[flag]], as a condition *)
Definition sync_enabled (vuex x : value) (flag : string) : async bool :=
  if negb (is_null x) then
    f ← lift (get_prop vuex flag); mret (truthy f)
  else mret false.

(** [vuex] is the module's [vuex] option; [store] is the application
    store, [None] when there is none. *)
Definition syncVuex (vuex : value) (store : option store_t)
    (locale messages : value) : async unit :=
  let locale := default_param locale VNull in
  let messages := default_param messages VNull in
  if truthy vuex then
    match store with
    | Some st =>
        doLocale ← sync_enabled vuex locale "syncLocale";
        _ ← (if doLocale : bool then
               moduleName ← lift (get_prop vuex "moduleName");
               _ ← await_dispatch st (to_string moduleName ++ "/setLocale")
                     locale;
               mret tt
             else mret tt);
        doMessages ← sync_enabled vuex messages "syncMessages";
        if doMessages : bool then
          moduleName ← lift (get_prop vuex "moduleName");
          _ ← await_dispatch st (to_string moduleName ++ "/setMessages")
                messages;
          mret tt
        else mret tt
    | None => mret tt
    end
  else mret tt.

End Store.

Arguments store_t S : clear implicits.
Arguments world S : clear implicits.
Arguments async S A : clear implicits.

(** * Definitions used to state the properties *)

(** ** Configuration data *)

(** The property [k] of an object, [undefined] when it has none. *)
Definition field (o : gmap string value) (k : string) : value :=
  default VUndef (o !! k).

(** The key names a property that objects inherit: a read of it on an
    object that has no such key of its own finds a built-in. *)
Definition inherited_name (k : string) : bool :=
  match object_member k with
  | Some _ => true
  | None => engine_member k
  end.

(** An entry of the data model's locale list: a code or a record. *)
Definition locale_entry (v : value) : bool :=
  match v with VStr _ | VObj _ => true | _ => false end.

(** The code field of an entry. *)
Definition code_field (v : value) : value :=
  match v with VObj o => field o LOCALE_CODE_KEY | _ => VUndef end.

(** What the extractor returns on a list, read off its first element. *)
Definition codes_of (l : list value) : list value :=
  match l with
  | [] => []
  | first :: _ =>
      if is_string first then l
      else if is_string (code_field first) then map code_field l
      else []
  end.

(** ** Page options

    The custom path of a locale key on a page: its own entry when that is
    a string, else the default locale's entry when that is a string. *)
Definition path_for (po : gmap string value) (dkey key : string)
    : option value :=
  if is_string (field po key) then Some (field po key)
  else if is_string (field po dkey) then Some (field po dkey)
  else None.

(** The locale is not switched off on the page. *)
Definition enabled (po : gmap string value) (locale : value) : bool :=
  negb (is_false (field po (to_key locale))).

(** One locale's contribution to the paths map. *)
Definition add_path (po : gmap string value) (dkey : string)
    (paths : gmap string value) (locale : value) : gmap string value :=
  match path_for po dkey (to_key locale) with
  | Some p => assign (to_key locale) p paths
  | None => paths
  end.

(** An argument that is a list, or left out. *)
Definition list_or_absent (v : value) : bool :=
  match v with VUndef | VArr _ => true | _ => false end.

(** The domain field of an entry. *)
Definition domain_field (v : value) : value :=
  match v with VObj o => field o LOCALE_DOMAIN_KEY | _ => VUndef end.

(** A value compared by [===] on its content. *)
Definition primitive (v : value) : bool :=
  match v with VArr _ | VObj _ => false | _ => true end.

(** ** Dispatches

    A dispatch of the synchronizer: the action type under the module's
    name, and the argument after defaulting. *)
Definition action (cfg : gmap string value) (name : string) (payload : value)
    : string * value :=
  (to_string (field cfg "moduleName") ++ name, default_param payload VNull).

(** The condition of a dispatch: [x !== null && vuex[flag]]. *)
Definition sync_on (cfg : gmap string value) (flag : string) (x : value)
    : bool :=
  negb (is_null (default_param x VNull)) && truthy (field cfg flag).

(** A store that counts its dispatches and rejects every [setLocale]. *)
Definition rejecting_store : store_t nat :=
  Store (fun type payload n =>
           if String.eqb type "i18n/setLocale"
           then (Throw (Raised (VStr "rejected")), Datatypes.S n)
           else (Normal VUndef, Datatypes.S n)).

(** ** Plain text and the patterns built from it *)

Abbreviation chars := String.list_ascii_of_string.
Abbreviation str := String.string_of_list_ascii.

(** A character that stands for itself in a pattern. *)
Definition plain (c : ascii) : bool :=
  match Re.classify c with Re.TLit _ => true | _ => false end.

(** A string without any character of the pattern syntax. *)
Definition plain_text (s : string) : bool := forallb plain (chars s).

(** The syntax trees of patterns built from plain text, and the match
    states reached on them. *)
Module Pattern.
Import Re.

(** The terms of a literal text. *)
Definition lits (s : list ascii) : list regex := map RChar s.

(** The frame of the parser after reading the terms [ts]. *)
Definition push_terms (ts : list regex) (f : frame) : frame :=
  Frame (f_kind f) (f_alts f) (rev ts ++ f_terms f).

(** The alternatives of a group: one literal sequence per code. *)
Definition lit_seq (s : list ascii) : regex := mk_seq (lits s).

(** The alternation of the patterns [rs], first to last. *)
Definition alt_of (rs : list regex) : regex :=
  match rs with
  | [] => REmpty
  | a :: rest => mk_alt a rest
  end.

(** [codes.join('|')], on characters *)
Fixpoint joined (c : list ascii) (cs : list (list ascii)) : list ascii :=
  match cs with
  | [] => c
  | c1 :: cs1 => c ++ "|"%char :: joined c1 cs1
  end.

(** The two patterns of getLocaleFromRoute, as syntax trees. *)
Definition name_ast (sep suffix c : list ascii) (cs : list (list ascii))
    : regex :=
  mk_seq (lits sep ++ [RGroup 1 (alt_of (map lit_seq (c :: cs)));
                       ROpt (RNonCap (lit_seq (sep ++ suffix)));
                       REol]).

Definition path_ast (c : list ascii) (cs : list (list ascii)) : regex :=
  mk_seq [RBol; RChar "/"; RGroup 1 (alt_of (map lit_seq (c :: cs)));
          RChar "/"].

(** The state [n] characters further, with [rest] left. *)
Definition skip (n : nat) (rest : list ascii) (x : mstate) : mstate :=
  MState (m_pos x + n) rest (m_caps x).

(** The captures of a successful [exec_from]. *)
Definition cap1 (hit : nat * mstate) : gmap nat string := m_caps (snd hit).

End Pattern.

(** ** The route-locale extractor, in the words of the spec.
    These definitions follow section 4.3 of the spec, not the source: they
    are what the source is compared with. *)

(** Taking the text [p] off the front of [s], letter case ignored. *)
Fixpoint ci_strip (p s : list ascii) : option (list ascii) :=
  match p with
  | [] => Some s
  | c :: p1 =>
      match s with
      | a :: s1 =>
          if Ascii.eqb (Re.canon a) (Re.canon c) then ci_strip p1 s1 else None
      | [] => None
      end
  end.

(** [s] is the text [p], letter case ignored. *)
Definition ci_is (p s : list ascii) : bool :=
  match ci_strip p s with Some [] => true | _ => false end.

(** Nothing is left of the name. *)
Definition at_end (s : list ascii) : bool :=
  match s with [] => true | _ => false end.

(** The first element, in list order, on which [f] succeeds. *)
Fixpoint first_some {A B} (f : A -> option B) (l : list A) : option B :=
  match l with
  | [] => None
  | a :: l1 =>
      match f a with
      | Some b => Some b
      | None => first_some f l1
      end
  end.

(** After the separator: the code [c], then the end of the name, or
    separator and default suffix and then the end.  The capture is the
    text of the name that stands for the code. *)
Definition code_then_end (sep suffix r1 c : list ascii) : option (list ascii) :=
  match ci_strip c r1 with
  | Some r2 =>
      if at_end r2 || ci_is (sep ++ suffix) r2
      then Some (take (List.length c) r1)
      else None
  | None => None
  end.

(** The pattern fits the name from [tail] on: the separator, then the
    first code, in list order, that leads to the end. *)
Definition name_match_at (sep suffix : list ascii) (codes : list (list ascii))
    (tail : list ascii) : option (list ascii) :=
  match ci_strip sep tail with
  | Some r1 => first_some (code_then_end sep suffix r1) codes
  | None => None
  end.

(** The leftmost place of the name where the pattern fits. *)
Fixpoint name_scan (sep suffix : list ascii) (codes : list (list ascii))
    (tail : list ascii) : option (list ascii) :=
  match name_match_at sep suffix codes tail with
  | Some t => Some t
  | None =>
      match tail with
      | [] => None
      | _ :: tail1 => name_scan sep suffix codes tail1
      end
  end.

(** The locale of a route name: the text captured at the leftmost fit. *)
Definition locale_in_name (sep suffix : string) (codes : list string)
    (name : string) : option string :=
  str <$> name_scan (chars sep) (chars suffix) (map chars codes) (chars name).

(** A path: [/], the code, [/], at the start. *)
Definition code_then_slash (r1 c : list ascii) : option (list ascii) :=
  match ci_strip c r1 with
  | Some r2 =>
      match ci_strip ["/"%char] r2 with
      | Some _ => Some (take (List.length c) r1)
      | None => None
      end
  | None => None
  end.

(** The pattern fits the path at its start, with the first code, in list
    order, that is followed by a slash. *)
Definition path_match (codes : list (list ascii)) (path : list ascii)
    : option (list ascii) :=
  match ci_strip ["/"%char] path with
  | Some r1 => first_some (code_then_slash r1) codes
  | None => None
  end.

(** The locale of a route path. *)
Definition locale_in_path (codes : list string) (path : string)
    : option string :=
  str <$> path_match (map chars codes) (chars path).

(** The value returned for a capture, null when there is none. *)
Definition code_or_null (o : option string) : value :=
  match o with
  | Some s => VStr s
  | None => VNull
  end.

(** The alternatives that [codes.join('|')] leaves between the brackets:
    the codes, and for no code at all a single empty alternative. *)
Definition alternatives (codes : list string) : list string :=
  match codes with
  | [] => [""]
  | _ :: _ => codes
  end.

(** ** Fitting a name or a path, declaratively

    Two texts that differ in letter case at most. *)
Definition same_text (a b : list ascii) : Prop :=
  map Re.canon a = map Re.canon b.

(** The name ends in: the separator, the text [t] of one of the codes, and
    then nothing more or the separator and the default suffix. *)
Definition name_fits (sep suffix : string) (codes : list string)
    (name t : string) : Prop :=
  exists (pre s rest : list ascii) (c : string),
    chars name = (pre ++ s ++ chars t ++ rest)%list
    /\ same_text s (chars sep)
    /\ c ∈ codes
    /\ same_text (chars t) (chars c)
    /\ (rest = [] \/ same_text rest (chars sep ++ chars suffix)).

(** The path starts with: [/], the text [t] of one of the codes, [/]. *)
Definition path_fits (codes : list string) (path t : string) : Prop :=
  exists (rest : list ascii) (c : string),
    chars path = ("/"%char :: chars t ++ "/"%char :: rest)%list
    /\ c ∈ codes
    /\ same_text (chars t) (chars c).

(** A route field that is a string, or counts as absent. *)
Definition text_or_absent (v : value) : bool :=
  match v with
  | VStr _ => true
  | _ => negb (truthy v)
  end.

(** The locale list of the data model, or none. *)
Definition locale_list (v : value) : bool :=
  match v with
  | VUndef => true
  | VArr l => forallb locale_entry l
  | _ => false
  end.

(** ** Further definitions

    Cutting the first place where the text [p] stands in [s], letter case
    ignored; [s] itself when there is none. *)
Fixpoint cut_first (p s : list ascii) : list ascii :=
  match ci_strip p s with
  | Some r => r
  | None =>
      match s with
      | [] => []
      | a :: s1 => a :: cut_first p s1
      end
  end.

(** A character that opens a quantifier in a pattern. *)
Definition quantifier (c : ascii) : bool :=
  Ascii.eqb c "*" || Ascii.eqb c "+" || Ascii.eqb c "?".

(** No character of [s] is [q], letter case ignored. *)
Definition free_of (q : ascii) (s : string) : bool :=
  forallb (fun a => negb (Ascii.eqb (Re.canon a) (Re.canon q))) (chars s).

(** No character of [s] is a slash. *)
Definition slash_free (s : list ascii) : bool :=
  forallb (fun a => negb (Ascii.eqb a "/")) s.

(** Nothing, or something that starts with a slash. *)
Definition path_part (s : string) : bool :=
  match s with
  | EmptyString => true
  | String a _ => Ascii.eqb a "/"
  end.

(** A page entry without options: anything that is not an object, an
    array or a non-empty string, and is not [false]. *)
Definition no_options (e : value) : bool :=
  match e with
  | VUndef | VNull | VBool true | VNum _ | VStr EmptyString => true
  | _ => false
  end.

(** A store that counts its dispatches and rejects every [setMessages]. *)
Definition messages_rejecting_store : store_t nat :=
  Store (fun type payload n =>
           if String.eqb type "i18n/setMessages"
           then (Throw (Raised (VStr "rejected")), Datatypes.S n)
           else (Normal VUndef, Datatypes.S n)).

(** * Properties *)

(** ** Reading properties and running callbacks that do not throw *)

Lemma lookup_own o k v :
  o !! k = Some v -> lookup (VObj o) k = Normal (Data v).
Proof. intros H. unfold lookup. cbn. by rewrite H. Qed.

Lemma lookup_absent o k :
  o !! k = None -> inherited_name k = false ->
  lookup (VObj o) k = Normal (Data VUndef).
Proof.
  intros H Hk. unfold lookup. cbn. rewrite H. unfold inherited_name in Hk.
  destruct (object_member k); [discriminate|]. by rewrite Hk.
Qed.

Lemma lookup_obj o k :
  inherited_name k = false -> lookup (VObj o) k = Normal (Data (field o k)).
Proof.
  intros Hk. unfold field. destruct (o !! k) as [v|] eqn:H.
  - by apply lookup_own.
  - by apply lookup_absent.
Qed.

Lemma get_prop_own o k v : o !! k = Some v -> get_prop (VObj o) k = Normal v.
Proof. intros H. unfold get_prop. by rewrite (lookup_own _ _ _ H). Qed.

Lemma get_prop_obj o k :
  inherited_name k = false -> get_prop (VObj o) k = Normal (field o k).
Proof. intros Hk. unfold get_prop. by rewrite (lookup_obj _ _ Hk). Qed.

Lemma get_prop_data v k x : get_prop v k = Normal x -> lookup v k = Normal (Data x).
Proof.
  unfold get_prop. destruct (lookup v k) as [[y|n]| |]; cbn; congruence.
Qed.

Lemma own_prop_normal v k :
  nullish v = false -> exists o, own_prop v k = Normal o.
Proof.
  destruct v; simpl; try discriminate; intros _; eauto;
    destruct (String.eqb k "length"); eauto;
    destruct (index_of_key k); eauto.
Qed.

Lemma own_prop_obj o k : own_prop (VObj o) k = Normal (o !! k).
Proof. reflexivity. Qed.

Lemma prop_is_false_obj po k :
  prop_is_false (Data (VObj po)) k = Normal (is_false (field po k)).
Proof. unfold prop_is_false, field. cbn. by destruct (po !! k). Qed.

Lemma prop_string_obj po k :
  prop_string (Data (VObj po)) k
  = Normal (if is_string (field po k) then Some (field po k) else None).
Proof. unfold prop_string, field. cbn. by destruct (po !! k). Qed.

Lemma get_code_normal v :
  nullish v = false -> exists x, get_prop v LOCALE_CODE_KEY = Normal x.
Proof.
  destruct v; try discriminate; intros _; try (eexists; reflexivity).
  eexists. by apply get_prop_obj.
Qed.

Lemma truthy_not_nullish v : truthy v = true -> nullish v = false.
Proof. destruct v; simpl; congruence. Qed.

Lemma truthy_length {A} (x : A) l :
  truthy (VNum (Z.of_nat (List.length (x :: l)))) = true.
Proof.
  unfold truthy. rewrite (proj2 (Z.eqb_neq _ _)); [reflexivity|].
  simpl List.length. lia.
Qed.

Lemma get_prop_length l :
  get_prop (VArr l) "length" = Normal (VNum (Z.of_nat (List.length l))).
Proof. reflexivity. Qed.

Lemma get_prop_first x l : get_prop (VArr (x :: l)) "0" = Normal x.
Proof. reflexivity. Qed.

Lemma mapM_pure {A B} (f : A -> completion B) (g : A -> B) l :
  Forall (fun x => f x = Normal (g x)) l -> mapM f l = Normal (map g l).
Proof.
  induction 1 as [|x l Hx _ IH]; simpl; [reflexivity|].
  rewrite Hx; simpl. rewrite IH. reflexivity.
Qed.

Lemma filterM_pure {A} (f : A -> completion bool) (g : A -> bool) l :
  (forall x, f x = Normal (g x)) -> filterM f l = Normal (List.filter g l).
Proof.
  intros Hf. induction l as [|x l IH]; simpl; [reflexivity|].
  rewrite Hf; simpl. rewrite IH; simpl. reflexivity.
Qed.

Lemma foldM_pure {A S} (f : S -> A -> completion S) (g : S -> A -> S) l s :
  (forall s x, f s x = Normal (g s x)) -> foldM f l s = Normal (foldl g s l).
Proof.
  intros Hf. revert s. induction l as [|x l IH]; intros s; simpl; [reflexivity|].
  rewrite Hf; simpl. apply IH.
Qed.

Lemma filter_sublist {A} (g : A -> bool) l : sublist (List.filter g l) l.
Proof.
  induction l as [|x l IH]; simpl; [constructor|].
  destruct (g x); by constructor.
Qed.

(** ** The locale-code extractor *)

Lemma get_code_entry v :
  locale_entry v = true -> get_prop v LOCALE_CODE_KEY = Normal (code_field v).
Proof.
  destruct v; simpl; try discriminate; intros _; [reflexivity|].
  by apply get_prop_obj.
Qed.

Lemma getLocaleCodes_entries l :
  Forall (fun v => locale_entry v = true) l ->
  getLocaleCodes (VArr l) = Normal (VArr (codes_of l)).
Proof.
  intros H. destruct H as [|first l Hfirst Hl]; [reflexivity|].
  unfold getLocaleCodes, codes_of, default_param.
  rewrite get_prop_length. cbn [mbind completion_bind].
  rewrite truthy_length, get_prop_first. cbn [mbind completion_bind].
  destruct (is_string first); [reflexivity|].
  rewrite (get_code_entry _ Hfirst). cbn [mbind completion_bind].
  destruct (is_string (code_field first)); [|reflexivity].
  cbn [as_array mbind completion_bind].
  rewrite (mapM_pure _ code_field (first :: l)).
  - reflexivity.
  - constructor; [by apply get_code_entry|].
    eapply Forall_impl; [exact Hl|]. intros v Hv. by apply get_code_entry.
Qed.

(** C6. getLocaleCodes returns the empty list for an absent or empty list;
    on a list of locale entries it returns the list itself when the first
    entry is a string, every entry's code field, in order, when the first
    entry is a record whose code field is a string, and the empty list
    otherwise; so [{domain: "x"}] gives []. *)
Theorem getLocaleCodes_spec (l : list value) :
  Forall (fun v => locale_entry v = true) l ->
  getLocaleCodes VUndef = Normal (VArr [])
  /\ getLocaleCodes (VArr []) = Normal (VArr [])
  /\ getLocaleCodes (VArr l) =
       Normal (VArr match l with
                    | [] => []
                    | first :: _ =>
                        if is_string first then l
                        else if is_string (code_field first)
                             then map code_field l
                             else []
                    end)
  /\ getLocaleCodes (VArr [VObj {[ "domain" := VStr "x" ]}]) = Normal (VArr []).
Proof.
  intros H. repeat split; try reflexivity.
  apply (getLocaleCodes_entries l H).
Qed.

Lemma getLocaleCodes_spec_witness :
  getLocaleCodes (VArr [VObj {[ "code" := VStr "en" ]};
                        VObj {[ "code" := VStr "fr" ]}])
  = Normal (VArr [VStr "en"; VStr "fr"]).
Proof.
  refine (proj1 (proj2 (proj2 (getLocaleCodes_spec
    [VObj {[ "code" := VStr "en" ]}; VObj {[ "code" := VStr "fr" ]}] _)))).
  repeat constructor.
Defined.

(** ** The page-options resolver *)

Lemma set_path_obj po dflt paths locale :
  set_path (Data (VObj po)) dflt paths locale
  = Normal (add_path po (to_key dflt) paths locale).
Proof.
  unfold set_path, add_path, path_for. rewrite !prop_string_obj.
  cbn [mbind completion_bind].
  destruct (is_string (field po (to_key locale))); [reflexivity|].
  cbn [mbind completion_bind].
  destruct (is_string (field po (to_key dflt))); reflexivity.
Qed.

Lemma assign_lookup k p paths k1 :
  assign k p paths !! k1
  = if bool_decide (k1 = k) && negb (String.eqb k "__proto__")
    then Some p else paths !! k1.
Proof.
  unfold assign. destruct (String.eqb k "__proto__").
  - by rewrite andb_false_r.
  - rewrite andb_true_r. case_bool_decide as Hk.
    + subst. by rewrite lookup_insert_eq.
    + by rewrite lookup_insert_ne by congruence.
Qed.

Lemma add_paths_lookup po dkey kept paths k :
  foldl (add_path po dkey) paths kept !! k
  = if bool_decide (k ∈ map to_key kept) && negb (String.eqb k "__proto__")
    then match path_for po dkey k with
         | Some p => Some p
         | None => paths !! k
         end
    else paths !! k.
Proof.
  revert paths. induction kept as [|l kept IH]; intros paths; simpl.
  { reflexivity. }
  rewrite IH. unfold add_path.
  destruct (decide (k = to_key l)) as [->|Hne].
  - rewrite (bool_decide_eq_true_2 (to_key l ∈ to_key l :: map to_key kept))
      by (apply elem_of_cons; by left).
    cbn [andb].
    destruct (path_for po dkey (to_key l)) as [p|] eqn:Hp.
    + rewrite assign_lookup.
      rewrite (bool_decide_eq_true_2 (to_key l = to_key l)) by reflexivity.
      cbn [andb].
      destruct (String.eqb (to_key l) "__proto__"); cbn [negb];
        destruct (bool_decide (to_key l ∈ map to_key kept)); reflexivity.
    + destruct (bool_decide (to_key l ∈ map to_key kept));
        destruct (String.eqb (to_key l) "__proto__"); reflexivity.
  - assert (Hiff : k ∈ to_key l :: map to_key kept <-> k ∈ map to_key kept).
    { rewrite elem_of_cons. tauto. }
    rewrite (bool_decide_ext _ _ Hiff).
    destruct (path_for po dkey (to_key l)) as [p|]; [|reflexivity].
    rewrite assign_lookup.
    rewrite (bool_decide_eq_false_2 (k = to_key l)) by congruence.
    reflexivity.
Qed.

(** The resolver on a page whose entry is an object. *)
Lemma getPageOptions_object route pg locales pagesDir dflt cs key po :
  getLocaleCodes locales = Normal (VArr cs) ->
  page_key route pagesDir = Normal key ->
  pg !! to_key key = Some (VObj po) ->
  getPageOptions route (VObj pg) locales pagesDir dflt
  = Normal (mk_options (VArr (List.filter (enabled po) cs))
              (foldl (add_path po (to_key dflt)) ∅
                 (List.filter (enabled po) cs))).
Proof.
  intros Hc Hk Hp. unfold getPageOptions.
  rewrite Hc, Hk. cbn [mbind completion_bind].
  rewrite (lookup_own _ _ _ Hp).
  cbn [entry_is_false entry_truthy is_false truthy negb as_array mbind
       completion_bind].
  rewrite (filterM_pure _ (enabled po))
    by (intros x; by rewrite prop_is_false_obj).
  cbn [mbind completion_bind].
  rewrite (foldM_pure _ (add_path po (to_key dflt)))
    by (intros; apply set_path_obj).
  reflexivity.
Qed.










Lemma getLocaleCodes_array locales c :
  list_or_absent locales = true ->
  getLocaleCodes locales = Normal c -> exists cs, c = VArr cs.
Proof.
  intros Hl. unfold getLocaleCodes.
  assert (exists l, default_param locales (VArr []) = VArr l) as [l ->].
  { destruct locales; try discriminate; simpl; eauto. }
  destruct l as [|x l].
  { cbn. intros [= <-]. eauto. }
  rewrite get_prop_length. cbn [mbind completion_bind].
  rewrite truthy_length, get_prop_first. cbn [mbind completion_bind].
  destruct (is_string x); [intros [= <-]; eauto|].
  destruct (get_prop x LOCALE_CODE_KEY) as [cx| |]; cbn [mbind completion_bind];
    try discriminate.
  destruct (is_string cx); [|intros [= <-]; eauto].
  cbn [as_array mbind completion_bind].
  destruct (mapM _ (x :: l)) as [codes| |]; cbn [mbind completion_bind];
    try discriminate.
  intros [= <-]. eauto.
Qed.

Lemma filterM_sublist {A} (f : A -> completion bool) l kept :
  filterM f l = Normal kept -> sublist kept l.
Proof.
  revert kept. induction l as [|x l IH]; intros kept; simpl.
  { intros [= <-]. constructor. }
  destruct (f x) as [b| |]; cbn [mbind completion_bind]; try discriminate.
  destruct (filterM f l) as [ys| |]; cbn [mbind completion_bind];
    try discriminate.
  intros [= <-]. destruct b; constructor; by apply IH.
Qed.

Lemma assign_keys k p acc k1 :
  is_Some (assign k p acc !! k1) -> is_Some (acc !! k1) \/ k1 = k.
Proof.
  rewrite assign_lookup. case_bool_decide; [auto|]. cbn [andb]. auto.
Qed.

Lemma set_path_keys pageOptions dflt acc locale paths k :
  set_path pageOptions dflt acc locale = Normal paths ->
  is_Some (paths !! k) -> is_Some (acc !! k) \/ k = to_key locale.
Proof.
  unfold set_path.
  destruct (prop_string pageOptions (to_key locale)) as [[p|]| |];
    cbn [mbind completion_bind]; try discriminate.
  - intros [= <-]. apply assign_keys.
  - destruct (prop_string pageOptions (to_key dflt)) as [[p|]| |];
      cbn [mbind completion_bind]; try discriminate; intros [= <-];
      [apply assign_keys|auto].
Qed.

Lemma foldM_set_path_keys pageOptions dflt kept acc paths k :
  foldM (set_path pageOptions dflt) kept acc = Normal paths ->
  is_Some (paths !! k) -> is_Some (acc !! k) \/ k ∈ map to_key kept.
Proof.
  revert acc. induction kept as [|l kept IH]; intros acc; simpl.
  { intros [= <-]. auto. }
  destruct (set_path pageOptions dflt acc l) as [acc1| |] eqn:Hstep;
    cbn [mbind completion_bind]; try discriminate.
  intros Hfold Hk. destruct (IH _ Hfold Hk) as [Hacc|Hin].
  - destruct (set_path_keys _ _ _ _ _ _ Hstep Hacc) as [?| ->]; [auto|].
    right. apply elem_of_cons. by left.
  - right. apply elem_of_cons. by right.
Qed.

(** C10. Whenever the resolver returns an object, every key of its paths
    map is (the key of) a member of its locales list, and its locales list
    is a subsequence, in order, of the codes that getLocaleCodes extracts
    from the locale list. *)
Theorem getPageOptions_invariant
    (route pages locales pagesDir dflt : value) (res : gmap string value) :
  list_or_absent locales = true ->
  getPageOptions route pages locales pagesDir dflt = Normal (VObj res) ->
  exists (cs kept : list value) (paths : gmap string value),
    getLocaleCodes locales = Normal (VArr cs)
    /\ res = {[ "locales" := VArr kept; "paths" := VObj paths ]}
    /\ sublist kept cs
    /\ forall k, is_Some (paths !! k) -> k ∈ map to_key kept.
Proof.
  intros Hl. unfold getPageOptions.
  destruct (getLocaleCodes locales) as [c| |] eqn:Hc;
    cbn [mbind completion_bind]; try discriminate.
  destruct (getLocaleCodes_array _ _ Hl Hc) as [cs ->].
  destruct (page_key route pagesDir) as [key| |];
    cbn [mbind completion_bind]; try discriminate.
  destruct (lookup pages (to_key key)) as [pageOptions| |];
    cbn [mbind completion_bind]; try discriminate.
  destruct (entry_is_false pageOptions); [discriminate|].
  destruct (entry_truthy pageOptions); cbn [negb].
  - cbn [as_array mbind completion_bind].
    destruct (filterM _ cs) as [kept| |] eqn:Hkept;
      cbn [mbind completion_bind]; try discriminate.
    destruct (foldM _ kept ∅) as [paths| |] eqn:Hpaths;
      cbn [mbind completion_bind]; try discriminate.
    intros [= <-]. exists cs, kept, paths.
    split; [reflexivity|]. split; [reflexivity|].
    split; [by eapply filterM_sublist|].
    intros k Hk. destruct (foldM_set_path_keys _ _ _ _ _ _ Hpaths Hk) as [H|H];
      [|exact H].
    rewrite lookup_empty in H. by destruct H.
  - intros [= <-]. exists cs, cs, ∅.
    split; [reflexivity|]. split; [reflexivity|].
    split; [reflexivity|].
    intros k Hk. rewrite lookup_empty in Hk. by destruct Hk.
Qed.

Lemma getPageOptions_invariant_witness :
  exists (cs kept : list value) (paths : gmap string value),
    getLocaleCodes (VArr [VObj {[ "code" := VStr "en" ]};
                          VObj {[ "code" := VStr "fr" ]};
                          VObj {[ "code" := VStr "de" ]}])
    = Normal (VArr cs)
    /\ ({[ "locales" := VArr [VStr "en"; VStr "de"];
           "paths" := VObj {[ "en" := VStr "/about-us";
                              "de" := VStr "/about-us" ]} ]}
        : gmap string value)
       = {[ "locales" := VArr kept; "paths" := VObj paths ]}
    /\ sublist kept cs
    /\ forall k, is_Some (paths !! k) -> k ∈ map to_key kept.
Proof.
  apply (getPageOptions_invariant
    (VObj {[ "name" := VStr "about" ]})
    (VObj {[ "about" :=
               VObj {[ "en" := VStr "/about-us"; "fr" := VBool false ]} ]})
    (VArr [VObj {[ "code" := VStr "en" ]}; VObj {[ "code" := VStr "fr" ]};
           VObj {[ "code" := VStr "de" ]}])
    (VStr "pages") (VStr "en"));
    vm_compute; reflexivity.
Defined.

(** ** The domain-locale resolver *)

Lemma strict_eq_primitive d h :
  primitive h = true ->
  exists b, strict_eq d h = Normal b /\ (b = true <-> d = h).
Proof.
  destruct h; try discriminate; intros _; destruct d; simpl;
    try (exists false; split; [reflexivity|]; split; congruence);
    try (exists true; split; [reflexivity|]; split; congruence).
  - exists (Bool.eqb b0 b). split; [reflexivity|].
    rewrite Bool.eqb_true_iff. split; congruence.
  - exists (n0 =? n)%Z. split; [reflexivity|].
    rewrite Z.eqb_eq. split; congruence.
  - exists (String.eqb s0 s). split; [reflexivity|].
    rewrite String.eqb_eq. split; congruence.
Qed.

Lemma get_domain_entry v :
  locale_entry v = true ->
  get_prop v LOCALE_DOMAIN_KEY = Normal (domain_field v).
Proof.
  destruct v; simpl; try discriminate; intros _; [reflexivity|].
  by apply get_prop_obj.
Qed.

Lemma find_domain_none h l :
  primitive h = true ->
  Forall (fun v => locale_entry v = true) l ->
  Forall (fun v => domain_field v <> h) l ->
  findM (fun l => d ← get_prop l LOCALE_DOMAIN_KEY; strict_eq d h) l
  = Normal None.
Proof.
  intros Hh He Hn. induction He as [|v l Hv _ IH]; simpl; [reflexivity|].
  apply Forall_cons in Hn as [Hne Hn].
  rewrite (get_domain_entry _ Hv). cbn [mbind completion_bind].
  destruct (strict_eq_primitive (domain_field v) h Hh) as (b & -> & Hb).
  cbn [mbind completion_bind].
  destruct b; [by destruct Hne; apply Hb|]. by apply IH.
Qed.

Lemma find_domain_first h pre ld post :
  primitive h = true ->
  Forall (fun v => locale_entry v = true) (pre ++ ld :: post)%list ->
  Forall (fun v => domain_field v <> h) pre ->
  domain_field ld = h ->
  findM (fun l => d ← get_prop l LOCALE_DOMAIN_KEY; strict_eq d h)
    (pre ++ ld :: post)%list
  = Normal (Some ld).
Proof.
  intros Hh He Hn Hd. induction pre as [|v pre IH]; simpl.
  - apply Forall_cons in He as [Hv _].
    rewrite (get_domain_entry _ Hv). cbn [mbind completion_bind].
    destruct (strict_eq_primitive (domain_field ld) h Hh) as (b & -> & Hb).
    cbn [mbind completion_bind].
    destruct b; [reflexivity|]. apply Hb in Hd. discriminate.
  - simpl in He. apply Forall_cons in He as [Hv He].
    apply Forall_cons in Hn as [Hne Hn].
    rewrite (get_domain_entry _ Hv). cbn [mbind completion_bind].
    destruct (strict_eq_primitive (domain_field v) h Hh) as (b & -> & Hb).
    cbn [mbind completion_bind].
    destruct b; [by destruct Hne; apply Hb|]. by apply IH.
Qed.

(** C9. The hostname is the third [/]-separated piece of the URL in a
    browser, and otherwise the [x-forwarded-host] header when the
    forwarded-host setting is on (the [host] header when that header is
    missing), else the [host] header.  With that hostname, the resolver
    returns the code field of the first configured locale whose domain
    field equals it, and null when there is none or the hostname is
    absent. *)
Theorem getLocaleDomain_spec (ctx : context) (i18n : gmap string value)
    (l : list value) (h : value) :
  get_prop (app ctx) "i18n" = Normal (VObj i18n) ->
  i18n !! "locales" = Some (VArr l) ->
  Forall (fun v => locale_entry v = true) l ->
  (if truthy (field i18n "forwardedHost") then getForwarded ctx
   else getHostname ctx) = Normal h ->
  primitive h = true ->
  (truthy h = false -> getLocaleDomain ctx = Normal VNull)
  /\ (truthy h = true ->
      forall pre ld post, l = (pre ++ ld :: post)%list ->
        Forall (fun v => domain_field v <> h) pre ->
        domain_field ld = h ->
        getLocaleDomain ctx = Normal (code_field ld))
  /\ (truthy h = true ->
      Forall (fun v => domain_field v <> h) l ->
      getLocaleDomain ctx = Normal VNull)
  /\ (process_browser ctx = true ->
      getHostname ctx = get_prop (split "/" (window_location_href ctx)) "2"
      /\ getForwarded ctx
         = get_prop (split "/" (window_location_href ctx)) "2")
  /\ (process_browser ctx = false ->
      forall hd, get_prop (req ctx) "headers" = Normal (VObj hd) ->
        getHostname ctx = Normal (field hd "host")
        /\ getForwarded ctx
           = Normal (if truthy (field hd "x-forwarded-host")
                     then field hd "x-forwarded-host"
                     else field hd "host")).
Proof.
  intros Happ Hloc He Hhost Hprim.
  assert (Hrun : getLocaleDomain ctx =
    if truthy h then
      localeDomain ← findM (fun l => d ← get_prop l LOCALE_DOMAIN_KEY;
                                      strict_eq d h) l;
      match localeDomain with
      | Some ld =>
          if truthy ld then get_prop ld LOCALE_CODE_KEY else Normal VNull
      | None => Normal VNull
      end
    else Normal VNull).
  { unfold getLocaleDomain. rewrite Happ. cbn [mbind completion_bind].
    rewrite !get_prop_obj by reflexivity. cbn [mbind completion_bind].
    rewrite Hhost. cbn [mbind completion_bind].
    destruct (truthy h); [|reflexivity].
    unfold field at 1. rewrite Hloc. reflexivity. }
  split; [|split; [|split; [|split]]].
  - intros Ht. by rewrite Hrun, Ht.
  - intros Ht pre ld post -> Hpre Hd. rewrite Hrun, Ht.
    rewrite (find_domain_first h pre ld post Hprim He Hpre Hd).
    cbn [mbind completion_bind].
    assert (Hld : exists o, ld = VObj o).
    { destruct ld; simpl in Hd; subst h; try discriminate. eauto. }
    destruct Hld as [o ->]. by apply get_prop_obj.
  - intros Ht Hn. rewrite Hrun, Ht.
    by rewrite (find_domain_none h l Hprim He Hn).
  - intros Hb. unfold getHostname, getForwarded. by rewrite Hb.
  - intros Hb hd Hhd. unfold getHostname, getForwarded. rewrite Hb, Hhd.
    cbn [mbind completion_bind]. rewrite !get_prop_obj by reflexivity.
    cbn [mbind completion_bind]. split; [reflexivity|].
    by destruct (truthy (field hd "x-forwarded-host")).
Qed.

Lemma getLocaleDomain_spec_witness :
  getLocaleDomain
    (Context false ""
       (VObj {[ "headers" :=
                  VObj {[ "host" := VStr "internal:3000";
                          "x-forwarded-host" := VStr "fr.example.com" ]} ]})
       (VObj {[ "i18n" :=
                  VObj {[ "forwardedHost" := VBool true;
                          "locales" :=
                            VArr [VObj {[ "code" := VStr "en";
                                          "domain" := VStr "en.example.com" ]};
                                  VObj {[ "code" := VStr "fr";
                                          "domain" := VStr "fr.example.com" ]}]
                       ]} ]}))
  = Normal (VStr "fr").
Proof.
  refine (proj1 (proj2 (getLocaleDomain_spec _
    {[ "forwardedHost" := VBool true;
       "locales" :=
         VArr [VObj {[ "code" := VStr "en";
                       "domain" := VStr "en.example.com" ]};
               VObj {[ "code" := VStr "fr";
                       "domain" := VStr "fr.example.com" ]}] ]}
    _ (VStr "fr.example.com") _ _ _ _ _)) _
    [VObj {[ "code" := VStr "en"; "domain" := VStr "en.example.com" ]}]
    (VObj {[ "code" := VStr "fr"; "domain" := VStr "fr.example.com" ]})
    [] _ _ _).
  - vm_compute; reflexivity.
  - vm_compute; reflexivity.
  - repeat constructor.
  - vm_compute; reflexivity.
  - reflexivity.
  - reflexivity.
  - reflexivity.
  - repeat constructor. vm_compute. discriminate.
  - vm_compute; reflexivity.
Defined.

(** ** The store synchronizer *)

(** The run, spelled out on the outcome of the first dispatch. *)
Lemma syncVuex_unfold {S} (st : store_t S) cfg locale messages w :
  syncVuex (VObj cfg) (Some st) locale messages w =
    let setLocale := action cfg "/setLocale" locale in
    let setMessages := action cfg "/setMessages" messages in
    let '(r1, w1) :=
      if sync_on cfg "syncLocale" locale then
        let '(r, s) :=
          dispatch st (fst setLocale) (snd setLocale) (w_state w) in
        (r, World (w_log w ++ [setLocale]) s)
      else (Normal VUndef, w) in
    match r1 with
    | Normal _ =>
        if sync_on cfg "syncMessages" messages then
          let '(r, s) :=
            dispatch st (fst setMessages) (snd setMessages) (w_state w1) in
          (match r with
           | Normal _ => Normal tt
           | Throw e => Throw e
           | Unsupported => Unsupported
           end, World (w_log w1 ++ [setMessages]) s)
        else (Normal tt, w1)
    | Throw e => (Throw e, w1)
    | Unsupported => (Unsupported, w1)
    end.
Proof.
  unfold syncVuex, sync_on, action, sync_enabled, await_dispatch, lift.
  unfold mbind, async_bind, mret, async_ret. cbn [truthy fst snd].
  pose proof (get_prop_obj cfg "syncLocale" eq_refl) as H1.
  pose proof (get_prop_obj cfg "syncMessages" eq_refl) as H2.
  pose proof (get_prop_obj cfg "moduleName" eq_refl) as H3.
  destruct (is_null (default_param locale VNull)),
    (is_null (default_param messages VNull));
    cbn [negb andb]; rewrite ?H1, ?H2, ?H3;
    destruct (truthy (field cfg "syncLocale")),
      (truthy (field cfg "syncMessages"));
    repeat match goal with
      | |- context [dispatch st ?a ?b ?c] =>
          destruct (dispatch st a b c) as [[?|?|] ?]; cbn [w_state w_log]
      end;
    reflexivity.
Qed.



(** ** Patterns built from plain text *)

Lemma classify_plain c : plain c = true -> Re.classify c = Re.TLit c.
Proof.
  unfold plain, Re.classify.
  repeat match goal with
    | |- context [if ?b then _ else _] => destruct b; try discriminate
    end.
  reflexivity.
Qed.

Lemma chars_app a b : chars (a ++ b) = (chars a ++ chars b)%list.
Proof. induction a as [|c a IH]; simpl; [reflexivity|]. by rewrite IH. Qed.

Lemma plain_text_app a b :
  plain_text a = true -> plain_text b = true -> plain_text (a ++ b) = true.
Proof.
  unfold plain_text. intros Ha Hb. by rewrite chars_app, forallb_app, Ha, Hb.
Qed.

Module PlainRe.
Import Re Pattern.

Lemma parse_lits s rest n cur stack :
  forallb plain s = true ->
  parse (s ++ rest) n cur stack
  = parse rest n (push_terms (lits s) cur) stack.
Proof.
  revert cur. induction s as [|c s IH]; intros cur Hs.
  { by destruct cur. }
  simpl in Hs. apply andb_true_iff in Hs as [Hc Hs].
  simpl. rewrite (classify_plain c Hc), (IH _ Hs).
  f_equal. unfold push_terms, push_term. simpl.
  by rewrite <- app_assoc.
Qed.

(** One step of the parser on each syntax character of the two
    patterns. *)
Lemma parse_bar s n cur stack :
  parse ("|"%char :: s) n cur stack = parse s n (close_alt cur) stack.
Proof. reflexivity. Qed.

Lemma parse_close s n cur parent stack :
  parse (")"%char :: s) n cur (parent :: stack)
  = parse s n (push_term (close_group cur) parent) stack.
Proof. reflexivity. Qed.

Lemma parse_open q s n cur stack :
  Ascii.eqb q "?" = false ->
  parse ("("%char :: q :: s) n cur stack
  = parse (q :: s) (S n) (new_frame (GCap (S n))) (cur :: stack).
Proof.
  intros Hq. cbn [parse]. change (classify "(") with TOpen. cbn iota.
  by rewrite Hq.
Qed.

Lemma parse_open_noncap s n cur stack :
  parse ("("%char :: "?"%char :: ":"%char :: s) n cur stack
  = parse s n (new_frame GNon) (cur :: stack).
Proof. reflexivity. Qed.

Lemma parse_eol s n cur stack :
  parse ("$"%char :: s) n cur stack = parse s n (push_term REol cur) stack.
Proof. reflexivity. Qed.

Lemma parse_bol s n cur stack :
  parse ("^"%char :: s) n cur stack = parse s n (push_term RBol cur) stack.
Proof. reflexivity. Qed.

Lemma plain_not_quest c : plain c = true -> Ascii.eqb c "?" = false.
Proof.
  unfold plain, classify.
  repeat match goal with
    | |- context [if ?b then _ else _] => destruct b eqn:?; try discriminate
    end.
  reflexivity.
Qed.

Lemma last_default {A} (x y : A) l :
  l <> [] -> List.last l x = List.last l y.
Proof.
  induction l as [|z l IH]; [congruence|]. intros _.
  destruct l as [|z1 l]; [reflexivity|].
  change (List.last (z1 :: l) x = List.last (z1 :: l) y).
  apply IH. discriminate.
Qed.

Lemma last_cons {A} (x y : A) l : List.last (x :: l) y = List.last l x.
Proof.
  destruct l as [|z l]; [reflexivity|].
  change (List.last (z :: l) y = List.last (z :: l) x).
  apply last_default. discriminate.
Qed.

Lemma parse_joined c cs rest n k alts stack :
  forallb plain c = true ->
  forallb (forallb plain) cs = true ->
  parse (joined c cs ++ rest) n (Frame k alts []) stack
  = parse rest n
      (Frame k (rev (map lit_seq (removelast (c :: cs))) ++ alts)
         (rev (lits (List.last cs c)))) stack.
Proof.
  revert c alts. induction cs as [|c1 cs IH]; intros c alts Hc Hcs.
  { simpl. rewrite (parse_lits _ _ _ _ _ Hc). unfold push_terms; simpl.
    by rewrite app_nil_r. }
  simpl in Hcs. apply andb_true_iff in Hcs as [Hc1 Hcs].
  cbn [joined]. rewrite <- app_assoc, (parse_lits _ _ _ _ _ Hc).
  rewrite <- app_comm_cons, parse_bar.
  unfold close_alt, push_terms. cbn [f_kind f_alts f_terms].
  rewrite app_nil_r, rev_involutive.
  rewrite (IH c1 _ Hc1 Hcs).
  f_equal. f_equal.
  - change (removelast (c :: c1 :: cs)) with (c :: removelast (c1 :: cs)).
    cbn [map rev]. by rewrite <- app_assoc.
  - by rewrite last_cons.
Qed.

Lemma disjunction_group k c cs :
  disjunction
    (Frame k (rev (map lit_seq (removelast (c :: cs))))
       (rev (lits (List.last cs c))))
  = alt_of (map lit_seq (c :: cs)).
Proof.
  unfold disjunction, close_alt. cbn [f_alts f_terms].
  rewrite rev_involutive. cbn [rev]. rewrite rev_involutive.
  change (mk_seq (lits (List.last cs c))) with (lit_seq (List.last cs c)).
  rewrite <- (map_app lit_seq _ [List.last cs c]).
  rewrite <- (last_cons c c cs).
  rewrite <- app_removelast_last by discriminate.
  reflexivity.
Qed.

Lemma parse_quest_group r s n k alts ts stack :
  parse ("?"%char :: s) n (Frame k alts (RNonCap r :: ts)) stack
  = parse s n (Frame k alts (ROpt (RNonCap r) :: ts)) stack.
Proof. reflexivity. Qed.

Lemma joined_head c cs rest :
  forallb plain c = true ->
  exists q s, (joined c cs ++ ")"%char :: rest)%list = q :: s
              /\ Ascii.eqb q "?" = false.
Proof.
  intros Hc. destruct c as [|a c].
  - destruct cs; simpl; eauto.
  - simpl in Hc. apply andb_true_iff in Hc as [Ha _].
    destruct cs; simpl; eauto using plain_not_quest.
Qed.

Lemma parse_group c cs rest n cur stack :
  forallb plain c = true ->
  forallb (forallb plain) cs = true ->
  parse ("("%char :: joined c cs ++ ")"%char :: rest) n cur stack
  = parse rest (S n)
      (push_term (RGroup (S n) (alt_of (map lit_seq (c :: cs)))) cur) stack.
Proof.
  intros Hc Hcs.
  destruct (joined_head c cs rest Hc) as (q & s & Hqs & Hq).
  rewrite Hqs, (parse_open _ _ _ _ _ Hq), <- Hqs.
  unfold new_frame. rewrite (parse_joined _ _ _ _ _ _ _ Hc Hcs).
  rewrite parse_close, app_nil_r.
  unfold close_group at 1. cbn [f_kind].
  by rewrite disjunction_group.
Qed.

Lemma parse_name_pattern sep suffix c cs :
  forallb plain sep = true ->
  forallb plain suffix = true ->
  forallb plain c = true ->
  forallb (forallb plain) cs = true ->
  parse (sep ++ "("%char :: joined c cs ++ ")"%char
             :: "("%char :: "?"%char :: ":"%char
             :: (sep ++ suffix) ++ [")"%char; "?"%char; "$"%char])
    0 (new_frame GTop) []
  = Normal (name_ast sep suffix c cs, 1%nat).
Proof.
  intros Hsep Hsuf Hc Hcs.
  rewrite (parse_lits _ _ _ _ _ Hsep).
  rewrite (parse_group _ _ _ _ _ _ Hc Hcs).
  rewrite parse_open_noncap.
  rewrite parse_lits by (by rewrite forallb_app, Hsep, Hsuf).
  rewrite parse_close.
  unfold close_group, new_frame, push_terms, push_term, disjunction,
    close_alt.
  cbn [f_kind f_alts f_terms rev app mk_alt].
  rewrite parse_quest_group, parse_eol.
  unfold push_term. cbn [f_kind f_alts f_terms parse].
  unfold disjunction, close_alt. cbn [f_kind f_alts f_terms rev app mk_alt].
  rewrite !app_nil_r, !rev_involutive. cbn [app mk_alt].
  unfold name_ast, lit_seq.
  by rewrite <- !app_assoc.
Qed.

Lemma parse_path_pattern c cs :
  forallb plain c = true ->
  forallb (forallb plain) cs = true ->
  parse ("^"%char :: "/"%char :: "("%char
           :: joined c cs ++ [")"%char; "/"%char])
    0 (new_frame GTop) []
  = Normal (path_ast c cs, 1%nat).
Proof.
  intros Hc Hcs.
  rewrite parse_bol.
  change (parse ("/"%char :: ?s) ?n ?cur ?st)
    with (parse s n (push_term (RChar "/") cur) st).
  rewrite (parse_group _ _ _ _ _ _ Hc Hcs).
  reflexivity.
Qed.

End PlainRe.

(** ** Matching the two patterns *)

Module PlainMatch.
Import Re Pattern PlainRe.

Lemma rmatch_lits p more x k :
  rmatch (mk_seq (lits p ++ more)) x k
  = match ci_strip p (m_rest x) with
    | Some r => rmatch (mk_seq more) (skip (List.length p) r x) k
    | None => None
    end.
Proof.
  revert x. induction p as [|c p IH]; intros x.
  { destruct x as [pos rest caps]. unfold skip. simpl.
    by rewrite Nat.add_0_r. }
  change (rmatch (mk_seq (lits (c :: p) ++ more)) x k)
    with (rmatch (RSeq (RChar c) (mk_seq (lits p ++ more))) x k).
  cbn [rmatch ci_strip].
  destruct (m_rest x) as [|a r1]; [reflexivity|].
  destruct (Ascii.eqb (canon a) (canon c)); [|reflexivity].
  rewrite IH. cbn [advance m_rest].
  destruct (ci_strip p r1) as [r|]; [|reflexivity].
  f_equal. unfold skip, advance. cbn [m_pos m_caps List.length].
  f_equal. lia.
Qed.

Lemma rmatch_lit_seq p x k :
  rmatch (lit_seq p) x k
  = match ci_strip p (m_rest x) with
    | Some r => k (skip (List.length p) r x)
    | None => None
    end.
Proof.
  unfold lit_seq. rewrite <- (app_nil_r (lits p)), rmatch_lits.
  reflexivity.
Qed.

Lemma rmatch_alt c cs x k :
  rmatch (alt_of (map lit_seq (c :: cs))) x k
  = first_some (fun c => match ci_strip c (m_rest x) with
                         | Some r => k (skip (List.length c) r x)
                         | None => None
                         end) (c :: cs).
Proof.
  revert c. induction cs as [|c1 cs IH]; intros c.
  { cbn [map alt_of mk_alt first_some]. rewrite rmatch_lit_seq.
    by destruct (ci_strip c (m_rest x)) as [r|]; [destruct (k _)|]. }
  change (alt_of (map lit_seq (c :: c1 :: cs)))
    with (RAlt (lit_seq c) (alt_of (map lit_seq (c1 :: cs)))).
  cbn [rmatch]. rewrite rmatch_lit_seq, IH. reflexivity.
Qed.

Lemma groups_of_lit_seq p : groups_of (lit_seq p) = [].
Proof. induction p as [|c p IH]; [reflexivity|]. exact IH. Qed.

Lemma clear_none x : clear_caps [] x = x.
Proof. by destruct x. Qed.

Lemma first_some_fmap {A B1 B2 C} (f1 : A -> option B1)
    (f2 : A -> option B2) (g : B1 -> C) (h : B2 -> C) l :
  (forall a, g <$> f1 a = h <$> f2 a) ->
  g <$> first_some f1 l = h <$> first_some f2 l.
Proof.
  intros H. induction l as [|a l IH]; [reflexivity|]. simpl.
  specialize (H a). destruct (f1 a), (f2 a); simpl in *; congruence.
Qed.

(** What follows the group in the name pattern: the optional separator
    and suffix, and the end of the name. *)
Lemma rmatch_name_tail p z :
  m_caps <$> rmatch (mk_seq [ROpt (RNonCap (lit_seq p)); REol]) z Some
  = if at_end (m_rest z) || ci_is p (m_rest z) then Some (m_caps z)
    else None.
Proof.
  cbn [mk_seq foldr rmatch groups_of].
  rewrite groups_of_lit_seq, clear_none, rmatch_lit_seq.
  unfold ci_is. destruct (ci_strip p (m_rest z)) as [r3|] eqn:Hp.
  - cbn [skip m_pos m_rest].
    destruct p as [|c p].
    + simpl in Hp. injection Hp as <-.
      rewrite Nat.add_0_r, Nat.eqb_refl.
      by destruct (m_rest z).
    + replace (m_pos z + List.length (c :: p) =? m_pos z)%nat with false
        by (symmetry; apply Nat.eqb_neq; simpl; lia).
      destruct r3; [by rewrite orb_true_r|].
      destruct (m_rest z); [discriminate Hp|reflexivity].
  - by destruct (m_rest z).
Qed.

Lemma rmatch_name sep suffix c cs x :
  m_caps <$> rmatch (name_ast sep suffix c cs) x Some
  = (fun t => <[1%nat := str t]> (m_caps x))
      <$> name_match_at sep suffix (c :: cs) (m_rest x).
Proof.
  unfold name_ast, name_match_at. rewrite rmatch_lits.
  destruct (ci_strip sep (m_rest x)) as [r1|]; [|reflexivity].
  change (mk_seq [RGroup 1 (alt_of (map lit_seq (c :: cs)));
                  ROpt (RNonCap (lit_seq (sep ++ suffix))); REol])
    with (RSeq (RGroup 1 (alt_of (map lit_seq (c :: cs))))
            (mk_seq [ROpt (RNonCap (lit_seq (sep ++ suffix))); REol])).
  cbn [rmatch]. rewrite rmatch_alt.
  apply first_some_fmap. intros a. unfold code_then_end.
  cbn [skip m_rest].
  destruct (ci_strip a r1) as [r2|]; [|reflexivity].
  rewrite rmatch_name_tail. cbn [set_cap skip m_rest m_caps m_pos].
  destruct (at_end r2 || ci_is (sep ++ suffix) r2); [|reflexivity].
  simpl. do 3 f_equal. f_equal. lia.
Qed.

Lemma exec_from_name sep suffix c cs pos rest :
  cap1 <$> exec_from (name_ast sep suffix c cs) pos rest
  = (fun t => {[ 1%nat := str t ]})
      <$> name_scan sep suffix (c :: cs) rest.
Proof.
  assert (Hat : forall pos rest,
    match rmatch (name_ast sep suffix c cs) (MState pos rest ∅) Some,
          name_match_at sep suffix (c :: cs) rest with
    | Some z, Some t => m_caps z = {[ 1%nat := str t ]}
    | None, None => True
    | _, _ => False
    end).
  { intros pos1 rest1.
    pose proof (rmatch_name sep suffix c cs (MState pos1 rest1 ∅)) as H.
    cbn [m_rest m_caps] in H.
    destruct (rmatch _ _ Some), (name_match_at _ _ _ _);
      simpl in H; try discriminate; [|exact I].
    by injection H. }
  revert pos. induction rest as [|a rest IH]; intros pos;
    cbn [exec_from name_scan]; specialize (Hat pos).
  - specialize (Hat []).
    destruct (rmatch _ _ Some), (name_match_at _ _ _ _);
      try contradiction; [|reflexivity].
    unfold cap1. simpl. by rewrite Hat.
  - specialize (Hat (a :: rest)).
    destruct (rmatch _ _ Some), (name_match_at _ _ _ _);
      try contradiction; [|apply IH].
    unfold cap1. simpl. by rewrite Hat.
Qed.

Lemma first_group_capture re input start z s :
  re_groups re = 1%nat ->
  m_caps z !! 1%nat = Some s ->
  first_group (Some (match_array re input start z)) = VStr s.
Proof.
  intros Hg Hc. unfold first_group, match_array. rewrite Hg.
  cbn [seq map List.length Nat.ltb Nat.leb lookup list_lookup].
  unfold capture_value. by rewrite Hc.
Qed.

(** The name pattern against a name. *)
Lemma exec_name sep suffix c cs name :
  first_group (exec (Regexp (name_ast sep suffix c cs) 1) name)
  = code_or_null (str <$> name_scan sep suffix (c :: cs) (chars name)).
Proof.
  unfold exec. cbn [re_ast].
  pose proof (exec_from_name sep suffix c cs 0 (chars name)) as H.
  destruct (exec_from _ 0 (chars name)) as [[start z]|],
    (name_scan sep suffix (c :: cs) (chars name)) as [t|];
    simpl in H; try discriminate; [|reflexivity].
  injection H as H. unfold cap1 in H. simpl in H.
  apply first_group_capture; [reflexivity|].
  rewrite H. apply lookup_singleton_eq.
Qed.

Lemma rmatch_path c cs x :
  m_caps <$> rmatch (path_ast c cs) x Some
  = if (m_pos x =? 0)%nat
    then (fun t => <[1%nat := str t]> (m_caps x))
           <$> path_match (c :: cs) (m_rest x)
    else None.
Proof.
  change (path_ast c cs)
    with (RSeq RBol
            (mk_seq (lits ["/"%char]
                       ++ [RGroup 1 (alt_of (map lit_seq (c :: cs)));
                           RChar "/"]))).
  cbn [rmatch]. destruct (m_pos x =? 0)%nat; [|reflexivity].
  rewrite rmatch_lits. unfold path_match.
  destruct (ci_strip ["/"%char] (m_rest x)) as [r1|]; [|reflexivity].
  change (mk_seq [RGroup 1 (alt_of (map lit_seq (c :: cs))); RChar "/"])
    with (RSeq (RGroup 1 (alt_of (map lit_seq (c :: cs))))
            (lit_seq ["/"%char])).
  cbn [rmatch]. rewrite rmatch_alt.
  apply first_some_fmap. intros a. unfold code_then_slash.
  cbn [skip m_rest].
  destruct (ci_strip a r1) as [r2|]; [|reflexivity].
  rewrite rmatch_lit_seq. cbn [set_cap skip m_rest m_caps m_pos].
  destruct (ci_strip ["/"%char] r2); [|reflexivity].
  simpl. do 3 f_equal. f_equal. lia.
Qed.

Lemma exec_from_path_later c cs pos rest :
  pos <> 0%nat -> exec_from (path_ast c cs) pos rest = None.
Proof.
  assert (Hat : forall pos rest, pos <> 0%nat ->
    rmatch (path_ast c cs) (MState pos rest ∅) Some = None).
  { intros pos1 rest1 Hpos.
    pose proof (rmatch_path c cs (MState pos1 rest1 ∅)) as H.
    cbn [m_pos] in H. rewrite (proj2 (Nat.eqb_neq pos1 0) Hpos) in H.
    by destruct (rmatch _ _ Some). }
  revert pos. induction rest as [|a rest IH]; intros pos Hpos;
    cbn [exec_from]; rewrite (Hat _ _ Hpos); [reflexivity|].
  by apply IH.
Qed.

(** The path pattern against a path. *)
Lemma exec_path c cs path :
  first_group (exec (Regexp (path_ast c cs) 1) path)
  = code_or_null (str <$> path_match (c :: cs) (chars path)).
Proof.
  unfold exec. cbn [re_ast].
  pose proof (rmatch_path c cs (MState 0 (chars path) ∅)) as H.
  cbn [m_pos m_rest m_caps Nat.eqb] in H.
  assert (Hex : exec_from (path_ast c cs) 0 (chars path)
                = (fun z => (0%nat, z))
                    <$> rmatch (path_ast c cs) (MState 0 (chars path) ∅) Some).
  { destruct (chars path) as [|a rest]; cbn [exec_from];
      destruct (rmatch _ _ Some); try reflexivity.
    by apply exec_from_path_later. }
  rewrite Hex.
  destruct (rmatch _ _ Some) as [z|],
    (path_match (c :: cs) (chars path)) as [t|];
    simpl in H; try discriminate; [|reflexivity].
  injection H as H. cbn [fmap option_fmap option_map].
  apply first_group_capture; [reflexivity|].
  rewrite H. apply lookup_insert_eq.
Qed.

End PlainMatch.

(** ** The route-locale extractor on plain text *)

Lemma getLocaleCodes_default locales :
  getLocaleCodes (default_param locales (VArr [])) = getLocaleCodes locales.
Proof. by destruct locales. Qed.

Lemma join_elems_strings sep codes :
  join_elems sep (map VStr codes) = String.concat sep codes.
Proof.
  unfold join_elems. rewrite map_map. simpl. by rewrite map_id.
Qed.

Lemma chars_concat c cs :
  chars (String.concat "|" (c :: cs))
  = Pattern.joined (chars c) (map chars cs).
Proof.
  revert c. induction cs as [|c1 cs IH]; intros c; [reflexivity|].
  change (String.concat "|" (c :: c1 :: cs))
    with (c ++ "|" ++ String.concat "|" (c1 :: cs)).
  rewrite !chars_app, IH. reflexivity.
Qed.

Lemma chars_joined_codes codes :
  exists c cs, alternatives codes = c :: cs
    /\ chars (String.concat "|" codes)
       = Pattern.joined (chars c) (map chars cs).
Proof.
  destruct codes as [|c cs].
  - exists "", []. split; reflexivity.
  - exists c, cs. split; [reflexivity|apply chars_concat].
Qed.

Lemma plain_alternatives codes :
  forallb plain_text codes = true ->
  forallb plain_text (alternatives codes) = true.
Proof. by destruct codes. Qed.

Lemma forallb_plain_chars cs :
  forallb plain_text cs = true ->
  forallb (forallb plain) (map chars cs) = true.
Proof.
  induction cs as [|c cs IH]; [reflexivity|]. simpl.
  intros H. apply andb_true_iff in H as [Hc Hcs].
  by rewrite IH, andb_true_r.
Qed.

Lemma RegExp_name_pattern sep suffix codes c cs :
  plain_text sep = true -> plain_text suffix = true ->
  forallb plain_text codes = true ->
  alternatives codes = c :: cs ->
  chars (String.concat "|" codes) = Pattern.joined (chars c) (map chars cs) ->
  Re.RegExp (sep ++ ("(" ++ String.concat "|" codes ++ ")")
                 ++ ("(?:" ++ sep ++ suffix ++ ")?") ++ "$")
  = Normal (Re.Regexp
              (Pattern.name_ast (chars sep) (chars suffix) (chars c)
                 (map chars cs)) 1).
Proof.
  intros Hsep Hsuf Hcodes Halt Hj. unfold Re.RegExp.
  apply plain_alternatives in Hcodes. rewrite Halt in Hcodes.
  simpl in Hcodes. apply andb_true_iff in Hcodes as [Hc Hcs].
  rewrite !chars_app, Hj.
  change (chars "(") with ["("%char]. change (chars ")") with [")"%char].
  change (chars "(?:") with ["("%char; "?"%char; ":"%char].
  change (chars ")?") with [")"%char; "?"%char].
  change (chars "$") with ["$"%char].
  replace (chars sep ++ (["("%char] ++ Pattern.joined (chars c) (map chars cs)
             ++ [")"%char])
             ++ (["("%char; "?"%char; ":"%char] ++ chars sep ++ chars suffix
                   ++ [")"%char; "?"%char]) ++ ["$"%char])%list
    with (chars sep ++ "("%char :: Pattern.joined (chars c) (map chars cs)
            ++ ")"%char :: "("%char :: "?"%char :: ":"%char
            :: (chars sep ++ chars suffix)
            ++ [")"%char; "?"%char; "$"%char])%list.
  - rewrite PlainRe.parse_name_pattern; try assumption; [reflexivity|].
    by apply forallb_plain_chars.
  - cbn [app]. rewrite <- !app_assoc. reflexivity.
Qed.

Lemma RegExp_path_pattern codes c cs :
  forallb plain_text codes = true ->
  alternatives codes = c :: cs ->
  chars (String.concat "|" codes) = Pattern.joined (chars c) (map chars cs) ->
  Re.RegExp ("^/" ++ ("(" ++ String.concat "|" codes ++ ")") ++ "/")
  = Normal (Re.Regexp (Pattern.path_ast (chars c) (map chars cs)) 1).
Proof.
  intros Hcodes Halt Hj. unfold Re.RegExp.
  apply plain_alternatives in Hcodes. rewrite Halt in Hcodes.
  simpl in Hcodes. apply andb_true_iff in Hcodes as [Hc Hcs].
  rewrite !chars_app, Hj.
  change (chars "^/") with ["^"%char; "/"%char].
  change (chars "(") with ["("%char]. change (chars ")") with [")"%char].
  change (chars "/") with ["/"%char].
  replace (["^"%char; "/"%char]
             ++ (["("%char] ++ Pattern.joined (chars c) (map chars cs)
                   ++ [")"%char]) ++ ["/"%char])%list
    with ("^"%char :: "/"%char :: "("%char
            :: Pattern.joined (chars c) (map chars cs)
            ++ [")"%char; "/"%char])%list.
  - rewrite PlainRe.parse_path_pattern; try assumption; [reflexivity|].
    by apply forallb_plain_chars.
  - cbn [app]. rewrite <- !app_assoc. reflexivity.
Qed.

(** The extractor for a separator, a suffix and codes that are plain
    text. *)
Lemma getLocaleFromRoute_plain (route : gmap string value)
    (sep suffix : string) (codes : list string) (locales : value) :
  plain_text sep = true -> plain_text suffix = true ->
  forallb plain_text codes = true ->
  getLocaleCodes locales = Normal (VArr (map VStr codes)) ->
  getLocaleFromRoute (VObj route) (VStr sep) (VStr suffix) locales
  = if truthy (field route "name") then
      name ← as_string (field route "name");
      Normal (code_or_null
                (locale_in_name sep suffix (alternatives codes) name))
    else if truthy (field route "path") then
      path ← as_string (field route "path");
      Normal (code_or_null (locale_in_path (alternatives codes) path))
    else Normal VNull.
Proof.
  intros Hsep Hsuf Hcodes Hget. unfold getLocaleFromRoute.
  cbn [default_param]. rewrite getLocaleCodes_default, Hget.
  cbn [mbind completion_bind as_array to_string].
  rewrite join_elems_strings. rewrite !get_prop_obj by reflexivity.
  cbn [mbind completion_bind].
  destruct (chars_joined_codes codes) as (c & cs & Halt & Hj).
  unfold locale_in_name, locale_in_path. rewrite Halt.
  destruct (truthy (field route "name")).
  - rewrite (RegExp_name_pattern sep suffix codes c cs) by assumption.
    cbn [mbind completion_bind].
    destruct (as_string (field route "name")) as [name| |];
      cbn [mbind completion_bind]; try reflexivity.
    by rewrite PlainMatch.exec_name.
  - destruct (truthy (field route "path")); [|reflexivity].
    rewrite (RegExp_path_pattern codes c cs) by assumption.
    cbn [mbind completion_bind].
    destruct (as_string (field route "path")) as [path| |];
      cbn [mbind completion_bind]; try reflexivity.
    by rewrite PlainMatch.exec_path.
Qed.

(** ** What the captured code is *)

Lemma ci_strip_Some p s r :
  ci_strip p s = Some r <->
  exists m, s = (m ++ r)%list /\ same_text m p.
Proof.
  unfold same_text. revert s. induction p as [|c p IH]; intros s; simpl.
  - split.
    + intros [= ->]. by exists [].
    + intros (m & -> & Hm). by destruct m.
  - destruct s as [|a s].
    + split; [discriminate|]. intros (m & Hs & Hm).
      destruct m; [discriminate Hm|discriminate Hs].
    + destruct (Ascii.eqb (Re.canon a) (Re.canon c)) eqn:Hac.
      * apply Ascii.eqb_eq in Hac. rewrite IH. split.
        -- intros (m & -> & Hm). exists (a :: m). simpl. by rewrite Hac, Hm.
        -- intros (m & Hs & Hm). destruct m as [|b m]; [discriminate Hm|].
           simpl in Hs, Hm. injection Hs as -> ->. injection Hm as _ Hm.
           eauto.
      * apply Ascii.eqb_neq in Hac. split; [discriminate|].
        intros (m & Hs & Hm). destruct m as [|b m]; [discriminate Hm|].
        simpl in Hs, Hm. injection Hs as -> ->. injection Hm as Hb _.
        contradiction.
Qed.

Lemma same_text_length a b : same_text a b -> List.length a = List.length b.
Proof.
  unfold same_text. intros H.
  by rewrite <- (length_map Re.canon a), H, length_map.
Qed.

Lemma ci_strip_take p s r :
  ci_strip p s = Some r ->
  s = (take (List.length p) s ++ r)%list
  /\ same_text (take (List.length p) s) p.
Proof.
  intros H. apply ci_strip_Some in H as (m & -> & Hm).
  rewrite <- (same_text_length _ _ Hm), take_app_length. by split.
Qed.

Lemma ci_is_true p s : ci_is p s = true <-> same_text s p.
Proof.
  unfold ci_is. split.
  - destruct (ci_strip p s) as [[|]|] eqn:H; try discriminate. intros _.
    apply ci_strip_Some in H as (m & -> & Hm). by rewrite app_nil_r.
  - intros H. assert (Hs : ci_strip p s = Some []).
    { apply ci_strip_Some. exists s. by rewrite app_nil_r. }
    by rewrite Hs.
Qed.

Lemma first_some_Some {A B} (f : A -> option B) l b :
  first_some f l = Some b -> exists a, a ∈ l /\ f a = Some b.
Proof.
  induction l as [|a l IH]; simpl; [discriminate|].
  destruct (f a) as [b1|] eqn:Ha.
  - intros [= ->]. exists a. split; [apply elem_of_cons; by left|done].
  - intros H. destruct (IH H) as (a1 & Hin & Ha1).
    exists a1. split; [apply elem_of_cons; by right|done].
Qed.

Lemma first_some_None {A B} (f : A -> option B) l a :
  first_some f l = None -> a ∈ l -> f a = None.
Proof.
  induction l as [|a1 l IH]; simpl; intros H Hin.
  - by apply not_elem_of_nil in Hin.
  - destruct (f a1) eqn:Ha1; [discriminate|].
    apply elem_of_cons in Hin as [->|Hin]; [done|by apply IH].
Qed.

Lemma chars_str l : chars (str l) = l.
Proof. apply String.list_ascii_of_string_of_list_ascii. Qed.

Lemma str_chars s : str (chars s) = s.
Proof. apply String.string_of_list_ascii_of_string. Qed.

Lemma code_then_end_Some sep suffix r1 c t :
  code_then_end sep suffix r1 c = Some t ->
  exists rest, r1 = (t ++ rest)%list /\ same_text t c
               /\ (rest = [] \/ same_text rest (sep ++ suffix)%list).
Proof.
  unfold code_then_end.
  destruct (ci_strip c r1) as [r2|] eqn:Hc; [|discriminate].
  destruct (at_end r2 || ci_is (sep ++ suffix) r2) eqn:He; [|discriminate].
  intros [= <-]. apply ci_strip_take in Hc as [Hr1 Hsame].
  exists r2. split; [exact Hr1|]. split; [exact Hsame|].
  apply orb_true_iff in He as [He|He].
  - left. by destruct r2.
  - right. by apply ci_is_true.
Qed.

Lemma code_then_end_fits sep suffix t rest c :
  same_text t c ->
  rest = [] \/ same_text rest (sep ++ suffix)%list ->
  code_then_end sep suffix (t ++ rest) c = Some t.
Proof.
  intros Ht Hrest. unfold code_then_end.
  assert (Hc : ci_strip c (t ++ rest) = Some rest).
  { apply ci_strip_Some. by exists t. }
  rewrite Hc, <- (same_text_length _ _ Ht), take_app_length.
  replace (at_end rest || ci_is (sep ++ suffix) rest) with true; [done|].
  symmetry. apply orb_true_iff. destruct Hrest as [->|Hrest]; [by left|].
  right. by apply ci_is_true.
Qed.

(** The leftmost fit is a fit, and there is a leftmost fit as soon as
    there is a fit. *)
Lemma name_scan_fits sep suffix codes name :
  match locale_in_name sep suffix codes name with
  | Some t => name_fits sep suffix codes name t
  | None => forall t, ~ name_fits sep suffix codes name t
  end.
Proof.
  unfold locale_in_name, name_fits.
  generalize (chars name) as tail. intros tail.
  destruct (name_scan (chars sep) (chars suffix) (map chars codes) tail)
    as [t|] eqn:Hscan; simpl.
  - (* sound *)
    revert Hscan. induction tail as [|a tail IH]; cbn [name_scan].
    + destruct (name_match_at _ _ _ []) as [t1|] eqn:Hat; [|discriminate].
      intros [= ->]. unfold name_match_at in Hat.
      destruct (ci_strip (chars sep) []) as [r1|] eqn:Hsep; [|discriminate].
      apply first_some_Some in Hat as (c & Hin & Hc).
      apply list_elem_of_fmap in Hin as (c0 & -> & Hin).
      apply code_then_end_Some in Hc as (rest & -> & Ht & Hrest).
      apply ci_strip_Some in Hsep as (s & Hs & Hsame).
      exists [], s, rest, c0. rewrite chars_str. by repeat split.
    + destruct (name_match_at _ _ _ (a :: tail)) as [t1|] eqn:Hat.
      * intros [= ->]. unfold name_match_at in Hat.
        destruct (ci_strip (chars sep) (a :: tail)) as [r1|] eqn:Hsep;
          [|discriminate].
        apply first_some_Some in Hat as (c & Hin & Hc).
        apply list_elem_of_fmap in Hin as (c0 & -> & Hin).
        apply code_then_end_Some in Hc as (rest & -> & Ht & Hrest).
        apply ci_strip_Some in Hsep as (s & Hs & Hsame).
        exists [], s, rest, c0. rewrite chars_str. by repeat split.
      * intros H. destruct (IH H) as (pre & s & rest & c & -> & Hrest).
        exists (a :: pre), s, rest, c. by split.
  - (* complete *)
    intros t (pre & s & rest & c & Htail & Hs & Hin & Ht & Hrest).
    subst tail. revert Hscan. induction pre as [|a pre IH].
    + assert (Hat : name_match_at (chars sep) (chars suffix) (map chars codes)
                      ([] ++ s ++ chars t ++ rest) <> None).
      { unfold name_match_at. simpl.
        assert (Hsep : ci_strip (chars sep) (s ++ chars t ++ rest)
                       = Some (chars t ++ rest)%list).
        { apply ci_strip_Some. by exists s. }
        rewrite Hsep. intros Hnone.
        pose proof (first_some_None _ _ (chars c) Hnone) as Hc.
        rewrite (code_then_end_fits _ _ _ _ _ Ht Hrest) in Hc.
        discriminate Hc. by apply list_elem_of_fmap_2. }
      destruct ([] ++ s ++ chars t ++ rest)%list; cbn [name_scan];
        destruct (name_match_at _ _ _ _); congruence.
    + rewrite <- app_comm_cons. cbn [name_scan].
      destruct (name_match_at _ _ _ (a :: _)); [discriminate|]. exact IH.
Qed.

Lemma canon_slash a : Re.canon a = Re.canon "/" -> a = "/"%char.
Proof.
  destruct a as [[] [] [] [] [] [] [] []]; vm_compute; intros H;
    first [reflexivity | discriminate H].
Qed.

Lemma ci_strip_slash s r :
  ci_strip ["/"%char] s = Some r <-> s = "/"%char :: r.
Proof.
  rewrite ci_strip_Some. split.
  - intros (m & -> & Hm). destruct m as [|b [|]]; try discriminate Hm.
    injection Hm as Hb. by rewrite (canon_slash b Hb).
  - intros ->. by exists ["/"%char].
Qed.

Lemma path_match_fits codes path :
  match locale_in_path codes path with
  | Some t => path_fits codes path t
  | None => forall t, ~ path_fits codes path t
  end.
Proof.
  unfold locale_in_path, path_fits, path_match.
  generalize (chars path) as p. intros p.
  destruct (ci_strip ["/"%char] p) as [r1|] eqn:Hslash; simpl.
  - apply ci_strip_slash in Hslash as ->.
    destruct (first_some (code_then_slash r1) (map chars codes))
      as [t|] eqn:Hfirst; simpl.
    + apply first_some_Some in Hfirst as (c & Hin & Hc).
      apply list_elem_of_fmap in Hin as (c0 & -> & Hin).
      unfold code_then_slash in Hc.
      destruct (ci_strip (chars c0) r1) as [r2|] eqn:Hcode; [|discriminate].
      destruct (ci_strip ["/"%char] r2) as [r3|] eqn:Hend; [|discriminate].
      injection Hc as <-. apply ci_strip_slash in Hend as ->.
      apply ci_strip_take in Hcode as [Hr1 Hsame].
      exists r3, c0. rewrite chars_str. split; [by f_equal|]. by split.
    + intros t (rest & c & [= ->] & Hin & Ht).
      pose proof (first_some_None _ _ (chars c) Hfirst
                    (list_elem_of_fmap_2 _ _ _ Hin)) as Hc.
      unfold code_then_slash in Hc.
      assert (Hcode : ci_strip (chars c) (chars t ++ "/"%char :: rest)
                      = Some ("/"%char :: rest)).
      { apply ci_strip_Some. by exists (chars t). }
      rewrite Hcode in Hc. simpl in Hc.
      replace (Ascii.eqb (Re.canon "/") (Re.canon "/")) with true in Hc
        by reflexivity.
      discriminate Hc.
  - intros t (rest & c & -> & _). simpl in Hslash.
    replace (Ascii.eqb (Re.canon "/") (Re.canon "/")) with true in Hslash
      by reflexivity.
    discriminate Hslash.
Qed.

Lemma truthy_text v :
  truthy v = true -> text_or_absent v = true ->
  exists s, v = VStr s /\ s <> "".
Proof.
  destruct v as [| | | |s| |]; simpl; intros H H2;
    try discriminate; try (rewrite H in H2; discriminate).
  exists s. split; [done|]. intros ->. discriminate H.
Qed.

(** C4, the counterexample: the separator is read as pattern syntax.  With
    the separator [.] the name [aboutXfr], in which no separator stands
    before the code, still gives [fr]; with the separator [+] the pattern
    does not compile and the call throws. *)
Lemma getLocaleFromRoute_counterexample :
  getLocaleFromRoute (VObj {[ "name" := VStr "aboutXfr" ]})
    (VStr ".") (VStr "default") (VArr [VStr "en"; VStr "fr"])
  = Normal (VStr "fr")
  /\ (forall t, ~ name_fits "." "default" ["en"; "fr"] "aboutXfr" t)
  /\ getLocaleFromRoute (VObj {[ "name" := VStr "about-fr" ]})
       (VStr "+") (VStr "default") (VArr [VStr "en"; VStr "fr"])
     = Throw SyntaxError.
Proof.
  split; [vm_compute; reflexivity|]. split; [|vm_compute; reflexivity].
  pose proof (name_scan_fits "." "default" ["en"; "fr"] "aboutXfr") as H.
  assert (Hnone : locale_in_name "." "default" ["en"; "fr"] "aboutXfr" = None)
    by (vm_compute; reflexivity).
  by rewrite Hnone in H.
Qed.

(** C4, as amended.  For a separator, a default suffix and locale codes
    that are plain text (no character of the pattern syntax), at least one
    code, and a route whose name and path are strings when present: with a
    name, the extractor returns the part of the name that stands for the
    code when the name ends in separator, code and optionally separator
    and suffix, letter case ignored, and null when it does not; without a
    name but with a path, the part of the path between the slashes when the
    path starts with a slash, a code and a slash, and null when it does
    not; with neither, null.  The four examples of the spec come out as
    stated. *)
Theorem getLocaleFromRoute_spec (route : gmap string value)
    (sep suffix : string) (codes : list string) (locales : value) :
  plain_text sep = true -> plain_text suffix = true ->
  forallb plain_text codes = true -> codes <> [] ->
  getLocaleCodes locales = Normal (VArr (map VStr codes)) ->
  let result :=
    getLocaleFromRoute (VObj route) (VStr sep) (VStr suffix) locales in
  (forall name, field route "name" = VStr name -> name <> "" ->
     result = Normal (code_or_null (locale_in_name sep suffix codes name))
     /\ match locale_in_name sep suffix codes name with
        | Some t => name_fits sep suffix codes name t
        | None => forall t, ~ name_fits sep suffix codes name t
        end)
  /\ (forall path, truthy (field route "name") = false ->
        field route "path" = VStr path -> path <> "" ->
        result = Normal (code_or_null (locale_in_path codes path))
        /\ match locale_in_path codes path with
           | Some t => path_fits codes path t
           | None => forall t, ~ path_fits codes path t
           end)
  /\ (truthy (field route "name") = false ->
      truthy (field route "path") = false -> result = Normal VNull)
  /\ getLocaleFromRoute (VObj {[ "name" := VStr "about-fr" ]})
       (VStr "-") (VStr "default") (VArr [VStr "en"; VStr "fr"])
     = Normal (VStr "fr")
  /\ getLocaleFromRoute (VObj {[ "name" := VStr "about-en-default" ]})
       (VStr "-") (VStr "default") (VArr [VStr "en"; VStr "fr"])
     = Normal (VStr "en")
  /\ getLocaleFromRoute (VObj {[ "path" := VStr "/fr/about" ]})
       (VStr "-") (VStr "default") (VArr [VStr "en"; VStr "fr"])
     = Normal (VStr "fr")
  /\ getLocaleFromRoute (VObj ∅)
       (VStr "-") (VStr "default") (VArr [VStr "en"; VStr "fr"])
     = Normal VNull.
Proof.
  intros Hsep Hsuf Hcodes Hne Hget result.
  assert (Halt : alternatives codes = codes) by (by destruct codes).
  pose proof (getLocaleFromRoute_plain route sep suffix codes locales
                Hsep Hsuf Hcodes Hget) as Hrun.
  fold result in Hrun. rewrite Halt in Hrun.
  assert (Hnonempty : forall s, s <> "" -> truthy (VStr s) = true).
  { intros s Hs. simpl. by destruct s. }
  split; [|split; [|split; [|repeat split; vm_compute; reflexivity]]].
  - intros name Hname Hn. split; [|apply name_scan_fits].
    rewrite Hrun, Hname, (Hnonempty _ Hn). reflexivity.
  - intros path Hno Hpath Hp. split; [|apply path_match_fits].
    rewrite Hrun, Hno, Hpath, (Hnonempty _ Hp). reflexivity.
  - intros Hno Hnop. by rewrite Hrun, Hno, Hnop.
Qed.

Lemma getLocaleFromRoute_spec_witness :
  getLocaleFromRoute (VObj {[ "name" := VStr "blog-post___FR___default" ]})
    (VStr "___") (VStr "default")
    (VArr [VObj {[ "code" := VStr "en" ]}; VObj {[ "code" := VStr "fr" ]}])
  = Normal (VStr "FR").
Proof.
  etransitivity.
  - apply (proj1 (getLocaleFromRoute_spec
      {[ "name" := VStr "blog-post___FR___default" ]}
      "___" "default" ["en"; "fr"]
      (VArr [VObj {[ "code" := VStr "en" ]}; VObj {[ "code" := VStr "fr" ]}])
      ltac:(reflexivity) ltac:(reflexivity) ltac:(reflexivity)
      ltac:(discriminate) ltac:(vm_compute; reflexivity))
      "blog-post___FR___default");
      [vm_compute; reflexivity|discriminate].
  - vm_compute; reflexivity.
Defined.

(** C5, the counterexample: with no locale at all the group [()] captures
    the empty text, and that text is returned instead of null: for a name
    that ends in the separator, for every name when the separator is left
    to its default, and for a path that starts with two slashes. *)
Lemma getLocaleFromRoute_no_locales_counterexample :
  getLocaleFromRoute (VObj {[ "name" := VStr "about-" ]})
    (VStr "-") (VStr "default") (VArr [])
  = Normal (VStr "")
  /\ getLocaleFromRoute (VObj {[ "name" := VStr "about" ]})
       VUndef VUndef VUndef
     = Normal (VStr "")
  /\ getLocaleFromRoute (VObj {[ "path" := VStr "//about" ]})
       (VStr "-") (VStr "default") (VArr [])
     = Normal (VStr "").
Proof. repeat split; vm_compute; reflexivity. Qed.

Lemma same_text_empty t c : c ∈ [""] -> same_text (chars t) (chars c) -> t = "".
Proof.
  intros Hc. apply elem_of_cons in Hc as [->|Hc];
    [|by apply not_elem_of_nil in Hc].
  unfold same_text. simpl. intros H.
  rewrite <- (str_chars t). by destruct (chars t).
Qed.

(** C5, as amended.  With an empty locale list the group of the pattern is
    the empty alternation [()]; for a separator and a suffix that are plain
    text, and a route whose name and path are strings when present, the
    extractor returns null or the empty string: the empty
    string exactly when the name ends in the separator, optionally followed
    by separator and suffix, or, for a route without a name, when the path
    starts with two slashes. *)
Theorem getLocaleFromRoute_no_locales (route : gmap string value)
    (sep suffix : string) (locales : value) :
  plain_text sep = true -> plain_text suffix = true ->
  getLocaleCodes locales = Normal (VArr []) ->
  text_or_absent (field route "name") = true ->
  text_or_absent (field route "path") = true ->
  let result :=
    getLocaleFromRoute (VObj route) (VStr sep) (VStr suffix) locales in
  "(" ++ join_elems "|" [] ++ ")" = "()"
  /\ (result = Normal VNull \/ result = Normal (VStr ""))
  /\ (forall name, field route "name" = VStr name -> name <> "" ->
        (result = Normal (VStr "") <-> name_fits sep suffix [""] name ""))
  /\ (forall path, truthy (field route "name") = false ->
        field route "path" = VStr path -> path <> "" ->
        (result = Normal (VStr "") <-> path_fits [""] path "")).
Proof.
  intros Hsep Hsuf Hget Hname Hpath result.
  pose proof (getLocaleFromRoute_plain route sep suffix [] locales
                Hsep Hsuf eq_refl Hget) as Hrun.
  fold result in Hrun. cbn [alternatives] in Hrun.
  assert (Hn : forall name,
    code_or_null (locale_in_name sep suffix [""] name) = VNull
    /\ (forall t, ~ name_fits sep suffix [""] name t)
    \/ code_or_null (locale_in_name sep suffix [""] name) = VStr ""
       /\ name_fits sep suffix [""] name "").
  { intros name. pose proof (name_scan_fits sep suffix [""] name) as H.
    destruct (locale_in_name sep suffix [""] name) as [t|]; [right|by left].
    assert (t = "") as ->; [|by split].
    destruct H as (pre & s & rest & c & _ & _ & Hc & Ht & _).
    by apply (same_text_empty t c). }
  assert (Hp : forall path,
    code_or_null (locale_in_path [""] path) = VNull
    /\ (forall t, ~ path_fits [""] path t)
    \/ code_or_null (locale_in_path [""] path) = VStr ""
       /\ path_fits [""] path "").
  { intros path. pose proof (path_match_fits [""] path) as H.
    destruct (locale_in_path [""] path) as [t|]; [right|by left].
    assert (t = "") as ->; [|by split].
    destruct H as (rest & c & _ & Hc & Ht).
    by apply (same_text_empty t c). }
  assert (Hnonempty : forall s, s <> "" -> truthy (VStr s) = true).
  { intros s Hs. simpl. by destruct s. }
  split; [reflexivity|]. split; [|split].
  - rewrite Hrun. destruct (truthy (field route "name")) eqn:Htn.
    + destruct (truthy_text _ Htn Hname) as (name & -> & _).
      cbn [as_string mbind completion_bind].
      destruct (Hn name) as [[-> _]|[-> _]]; auto.
    + destruct (truthy (field route "path")) eqn:Htp; [|by left].
      destruct (truthy_text _ Htp Hpath) as (path & -> & _).
      cbn [as_string mbind completion_bind].
      destruct (Hp path) as [[-> _]|[-> _]]; auto.
  - intros name Hf Hne. rewrite Hrun, Hf, (Hnonempty _ Hne).
    cbn [as_string mbind completion_bind].
    destruct (Hn name) as [[-> Hno]|[-> Hyes]]; split; try done.
    intros H. by apply Hno in H.
  - intros path Hno Hf Hne. rewrite Hrun, Hno, Hf, (Hnonempty _ Hne).
    cbn [as_string mbind completion_bind].
    destruct (Hp path) as [[-> Hnone]|[-> Hyes]]; split; try done.
    intros H. by apply Hnone in H.
Qed.

Lemma getLocaleFromRoute_no_locales_witness :
  getLocaleFromRoute (VObj {[ "name" := VStr "about-fr" ]})
    (VStr "-") (VStr "default") (VArr [])
  = Normal VNull
  \/ getLocaleFromRoute (VObj {[ "name" := VStr "about-fr" ]})
       (VStr "-") (VStr "default") (VArr [])
     = Normal (VStr "").
Proof.
  apply (proj1 (proj2 (getLocaleFromRoute_no_locales
    {[ "name" := VStr "about-fr" ]} "-" "default" (VArr [])
    ltac:(reflexivity) ltac:(reflexivity) ltac:(reflexivity)
    ltac:(vm_compute; reflexivity) ltac:(vm_compute; reflexivity)))).
Defined.

(** ** Throwing and not throwing *)


Lemma getLocaleCodes_locale_list locales :
  locale_list locales = true ->
  exists cs, getLocaleCodes locales = Normal (VArr cs).
Proof.
  destruct locales as [| | | | |l|]; try discriminate; simpl.
  - intros _. by exists [].
  - intros Hl. exists (codes_of l). apply getLocaleCodes_entries.
    apply Forall_forall. intros v Hv.
    by apply (proj1 (forallb_forall _ _) Hl), list_elem_of_In.
Qed.

Lemma RegExp_plain s :
  plain_text s = true -> exists re, Re.RegExp s = Normal re.
Proof.
  intros Hs. unfold Re.RegExp.
  rewrite <- (app_nil_r (chars s)), (PlainRe.parse_lits _ _ _ _ _ Hs).
  simpl. eauto.
Qed.

Lemma filterM_normal {A} (f : A -> completion bool) l :
  (forall x, exists b, f x = Normal b) -> exists r, filterM f l = Normal r.
Proof.
  intros Hf. induction l as [|x l [r IH]]; simpl; [eauto|].
  destruct (Hf x) as [b ->]. rewrite IH. simpl. eauto.
Qed.

Lemma foldM_normal {A S} (f : S -> A -> completion S) l s :
  (forall s x, exists s1, f s x = Normal s1) ->
  exists r, foldM f l s = Normal r.
Proof.
  intros Hf. revert s. induction l as [|x l IH]; intros s; simpl; [eauto|].
  destruct (Hf s x) as [s1 ->]. simpl. apply IH.
Qed.

Lemma prop_is_false_normal v k :
  nullish v = false -> exists b, prop_is_false (Data v) k = Normal b.
Proof.
  intros Hv. unfold prop_is_false.
  destruct (own_prop_normal v k Hv) as [o ->]. cbn. eauto.
Qed.

Lemma prop_string_normal v k :
  nullish v = false -> exists r, prop_string (Data v) k = Normal r.
Proof.
  intros Hv. unfold prop_string.
  destruct (own_prop_normal v k Hv) as [o ->]. cbn. eauto.
Qed.

Lemma set_path_normal pageOptions dflt paths locale :
  nullish pageOptions = false ->
  exists p, set_path (Data pageOptions) dflt paths locale = Normal p.
Proof.
  intros Hp. unfold set_path.
  destruct (prop_string_normal pageOptions (to_key locale) Hp) as [own ->].
  cbn [mbind completion_bind]. destruct own; [eauto|].
  destruct (prop_string_normal pageOptions (to_key dflt) Hp) as [d ->].
  cbn [mbind completion_bind]. destruct d; eauto.
Qed.

Lemma page_key_normal (route : gmap string value) (pagesDir : string) :
  text_or_absent (field route "chunkName") = true ->
  plain_text pagesDir = true ->
  exists key, page_key (VObj route) (VStr pagesDir) = Normal key.
Proof.
  intros Hchunk Hdir. unfold page_key. cbn [to_string].
  destruct (RegExp_plain (pagesDir ++ "/")) as [re ->].
  { by apply plain_text_app. }
  cbn [mbind completion_bind]. rewrite (get_prop_obj route "chunkName") by reflexivity.
  cbn [mbind completion_bind].
  destruct (truthy (field route "chunkName")) eqn:Ht.
  - destruct (truthy_text _ Ht Hchunk) as (s & -> & _). simpl. eauto.
  - rewrite get_prop_obj by reflexivity. eauto.
Qed.



(** * Further properties *)

(** ** getLocaleCodes on its own result, and on any array *)

Lemma getLocaleCodes_first_string y ys :
  is_string y = true ->
  getLocaleCodes (VArr (y :: ys)) = Normal (VArr (y :: ys)).
Proof.
  intros Hy. unfold getLocaleCodes, default_param.
  rewrite get_prop_length. cbn [mbind completion_bind].
  rewrite truthy_length, get_prop_first. cbn [mbind completion_bind].
  by rewrite Hy.
Qed.

(** X1. getLocaleCodes is idempotent: whatever it returns, it returns
    unchanged when called on it again. *)
Theorem getLocaleCodes_idempotent (locales c : value) :
  getLocaleCodes locales = Normal c -> getLocaleCodes c = Normal c.
Proof.
  unfold getLocaleCodes at 1.
  assert (Hdef : default_param (default_param locales (VArr [])) (VArr [])
                 = default_param locales (VArr [])) by (by destruct locales).
  set (L := default_param locales (VArr [])) in *.
  destruct (get_prop L "length") as [len| |] eqn:Hlen;
    cbn [mbind completion_bind]; try discriminate.
  destruct (truthy len) eqn:Htl; [|by intros [= <-]].
  destruct (get_prop L "0") as [first| |] eqn:Hfirst;
    cbn [mbind completion_bind]; try discriminate.
  destruct (is_string first) eqn:Hs.
  { intros [= <-]. unfold getLocaleCodes. rewrite Hdef, Hlen.
    cbn [mbind completion_bind]. rewrite Htl, Hfirst.
    cbn [mbind completion_bind]. by rewrite Hs. }
  destruct (get_prop first LOCALE_CODE_KEY) as [cx| |] eqn:Hcx;
    cbn [mbind completion_bind]; try discriminate.
  destruct (is_string cx) eqn:Hcs; [|by intros [= <-]].
  destruct (as_array L) as [l| |] eqn:Hl; cbn [mbind completion_bind];
    try discriminate.
  destruct L as [| | | | |l0|]; try discriminate Hl. injection Hl as ->.
  destruct l as [|x l].
  { simpl in Hfirst. injection Hfirst as <-. discriminate Hcx. }
  rewrite get_prop_first in Hfirst. injection Hfirst as ->.
  cbn [mapM]. rewrite Hcx. cbn [mbind completion_bind].
  destruct (mapM _ l) as [ys| |]; cbn [mbind completion_bind];
    try discriminate.
  intros [= <-]. by apply getLocaleCodes_first_string.
Qed.

Lemma getLocaleCodes_idempotent_witness :
  getLocaleCodes (VArr [VStr "en"; VStr "fr"])
  = Normal (VArr [VStr "en"; VStr "fr"]).
Proof.
  assert (H : getLocaleCodes
                (VArr [VObj {[ "code" := VStr "en" ]};
                       VObj {[ "code" := VStr "fr" ]}])
              = Normal (VArr [VStr "en"; VStr "fr"]))
    by (vm_compute; reflexivity).
  exact (getLocaleCodes_idempotent _ _ H).
Defined.

Lemma mapM_get_normal l :
  Forall (fun v => nullish v = false) l ->
  exists ys, mapM (fun v => get_prop v LOCALE_CODE_KEY) l = Normal ys
             /\ List.length ys = List.length l.
Proof.
  induction 1 as [|x l Hx _ (ys & IH & Hlen)]; simpl; [by exists []|].
  destruct (get_code_normal x Hx) as [y ->]. cbn [mbind completion_bind].
  rewrite IH. cbn [mbind completion_bind]. exists (y :: ys).
  split; [reflexivity|]. simpl. by rewrite Hlen.
Qed.

(** X2. On an array, getLocaleCodes can only throw through a null or
    undefined element: without one it returns the empty list or a list as
    long as the input; with a null or undefined first element it throws a
    TypeError; and when the first element is a string the rest is not
    looked at. *)
Theorem getLocaleCodes_on_arrays (l : list value) :
  (Forall (fun v => nullish v = false) l ->
   exists cs, getLocaleCodes (VArr l) = Normal (VArr cs)
              /\ (cs = [] \/ List.length cs = List.length l))
  /\ (forall first rest, l = first :: rest -> nullish first = true ->
        getLocaleCodes (VArr l) = Throw TypeError)
  /\ (forall first rest, l = first :: rest -> is_string first = true ->
        getLocaleCodes (VArr l) = Normal (VArr l)).
Proof.
  split; [|split].
  - intros Hl. destruct Hl as [|x l Hx Hl]; [exists []; by split; [|left]|].
    unfold getLocaleCodes, default_param.
    rewrite get_prop_length. cbn [mbind completion_bind].
    rewrite truthy_length, get_prop_first. cbn [mbind completion_bind].
    destruct (is_string x); [exists (x :: l); by split; [|right]|].
    destruct (get_code_normal x Hx) as [cx ->].
    cbn [mbind completion_bind].
    destruct (is_string cx); [|exists []; by split; [|left]].
    cbn [as_array mbind completion_bind].
    destruct (mapM_get_normal (x :: l)) as (ys & -> & Hlen);
      [by constructor|].
    cbn [mbind completion_bind]. exists ys. by split; [|right].
  - intros first rest -> Hn. by destruct first.
  - intros first rest -> Hs. by apply getLocaleCodes_first_string.
Qed.

Lemma getLocaleCodes_on_arrays_witness :
  getLocaleCodes (VArr [VNull; VStr "en"]) = Throw TypeError.
Proof.
  apply (proj1 (proj2 (getLocaleCodes_on_arrays [VNull; VStr "en"]))
           VNull [VStr "en"]); reflexivity.
Defined.

(** X3. The resolver and the route-locale extractor use the locale list
    only through getLocaleCodes: given the extracted codes in place of the
    list they return the same. *)
Theorem locales_only_through_codes
    (route pages locales codes pagesDir dflt sep suffix : value) :
  getLocaleCodes locales = Normal codes ->
  getPageOptions route pages codes pagesDir dflt
  = getPageOptions route pages locales pagesDir dflt
  /\ getLocaleFromRoute route sep suffix codes
     = getLocaleFromRoute route sep suffix locales.
Proof.
  intros H. pose proof (getLocaleCodes_idempotent _ _ H) as Hi.
  split.
  - unfold getPageOptions. by rewrite H, Hi.
  - unfold getLocaleFromRoute. by rewrite !getLocaleCodes_default, H, Hi.
Qed.

Lemma locales_only_through_codes_witness :
  getLocaleFromRoute (VObj {[ "name" := VStr "about___fr" ]})
    (VStr "___") (VStr "default") (VArr [VStr "en"; VStr "fr"])
  = getLocaleFromRoute (VObj {[ "name" := VStr "about___fr" ]})
      (VStr "___") (VStr "default")
      (VArr [VObj {[ "code" := VStr "en" ]}; VObj {[ "code" := VStr "fr" ]}]).
Proof.
  assert (H : getLocaleCodes
                (VArr [VObj {[ "code" := VStr "en" ]};
                       VObj {[ "code" := VStr "fr" ]}])
              = Normal (VArr [VStr "en"; VStr "fr"]))
    by (vm_compute; reflexivity).
  exact (proj2 (locales_only_through_codes
    (VObj {[ "name" := VStr "about___fr" ]}) VUndef _ _ VUndef VUndef
    (VStr "___") (VStr "default") H)).
Defined.

(** ** The lookup key of a page *)

Lemma RegExp_plain_ast s :
  plain_text s = true ->
  Re.RegExp s = Normal (Re.Regexp (Pattern.lit_seq (chars s)) 0).
Proof.
  intros Hs. unfold Re.RegExp.
  rewrite <- (app_nil_r (chars s)), (PlainRe.parse_lits _ _ _ _ _ Hs).
  cbn [Re.parse mbind completion_bind].
  unfold Re.disjunction, Re.close_alt, Pattern.push_terms, Re.new_frame.
  cbn [Re.f_alts Re.f_terms Re.f_kind rev app Re.mk_alt].
  by rewrite !app_nil_r, rev_involutive.
Qed.

Lemma exec_from_start_ge r pos cs start z :
  Re.exec_from r pos cs = Some (start, z) -> pos <= start.
Proof.
  revert pos. induction cs as [|a cs IH]; intros pos; cbn [Re.exec_from];
    destruct (Re.rmatch r _ Some); try (intros [= <- _]; lia);
    try discriminate.
  intros H. apply IH in H. lia.
Qed.

Lemma replace_lit p pos cs :
  match Re.exec_from (Pattern.lit_seq p) pos cs with
  | Some (start, z) => (take (start - pos) cs ++ Re.m_rest z)%list
  | None => cs
  end = cut_first p cs.
Proof.
  revert pos. induction cs as [|a cs IH]; intros pos;
    cbn [Re.exec_from cut_first]; rewrite PlainMatch.rmatch_lit_seq;
    cbn [Re.m_rest].
  - destruct (ci_strip p []) as [r|]; [|reflexivity].
    by rewrite Nat.sub_diag.
  - destruct (ci_strip p (a :: cs)) as [r|].
    { by rewrite Nat.sub_diag. }
    specialize (IH (S pos)).
    destruct (Re.exec_from (Pattern.lit_seq p) (S pos) cs)
      as [[start z]|] eqn:Hex; [|by rewrite <- IH].
    apply exec_from_start_ge in Hex.
    rewrite <- IH. replace (start - pos) with (S (start - S pos)) by lia.
    reflexivity.
Qed.

Lemma replace_empty_plain s input :
  Re.replace_empty (Re.Regexp (Pattern.lit_seq s) 0) input
  = str (cut_first s (chars input)).
Proof.
  unfold Re.replace_empty. cbn [Re.re_ast].
  pose proof (replace_lit s 0 (chars input)) as H.
  destruct (Re.exec_from (Pattern.lit_seq s) 0 (chars input)) as [[start z]|].
  - by rewrite Nat.sub_0_r in H; rewrite H.
  - by rewrite <- H, str_chars.
Qed.

Lemma cut_first_prefix p m rest :
  same_text m p -> cut_first p (m ++ rest) = rest.
Proof.
  intros Hm. assert (H : ci_strip p (m ++ rest) = Some rest).
  { apply ci_strip_Some. by exists m. }
  destruct (m ++ rest)%list; simpl; by rewrite H.
Qed.

(** The first place, or none. *)
Lemma cut_first_cases p s :
  (exists pre m rest,
      s = (pre ++ m ++ rest)%list /\ same_text m p
      /\ cut_first p s = (pre ++ rest)%list
      /\ forall pre1 m1 rest1,
           s = (pre1 ++ m1 ++ rest1)%list -> same_text m1 p ->
           List.length pre <= List.length pre1)
  \/ (cut_first p s = s
      /\ forall pre m rest, s = (pre ++ m ++ rest)%list -> ~ same_text m p).
Proof.
  induction s as [|a s IH].
  - cbn [cut_first]. destruct (ci_strip p []) as [r|] eqn:Hp.
    + left. apply ci_strip_Some in Hp as (m & Hs & Hm).
      exists [], m, r. repeat split; try done. intros; simpl; lia.
    + right. split; [reflexivity|]. intros pre m rest Hs Hm.
      symmetry in Hs. apply app_eq_nil in Hs as [-> Hs].
      apply app_eq_nil in Hs as [-> ->].
      assert (H : ci_strip p [] = Some []) by (apply ci_strip_Some; by exists []).
      congruence.
  - cbn [cut_first]. destruct (ci_strip p (a :: s)) as [r|] eqn:Hp.
    + left. apply ci_strip_Some in Hp as (m & Hs & Hm).
      exists [], m, r. repeat split; try done. intros; simpl; lia.
    + assert (Hhead : forall m rest, a :: s = (m ++ rest)%list ->
                        ~ same_text m p).
      { intros m rest Hs Hm.
        assert (H : ci_strip p (a :: s) = Some rest)
          by (apply ci_strip_Some; by exists m).
        congruence. }
      destruct IH as [(pre & m & rest & -> & Hm & Hcut & Hmin)|[Hcut Hno]].
      * left. exists (a :: pre), m, rest. repeat split; try done.
        { simpl. by rewrite Hcut. }
        intros pre1 m1 rest1 Hs Hm1. destruct pre1 as [|b pre1].
        { by destruct (Hhead m1 rest1 Hs Hm1). }
        simpl in Hs. injection Hs as _ Hs. simpl.
        apply le_n_S. by apply (Hmin pre1 m1 rest1).
      * right. split; [by rewrite Hcut|].
        intros pre m rest Hs Hm. destruct pre as [|b pre].
        { by destruct (Hhead m rest Hs Hm). }
        simpl in Hs. injection Hs as _ Hs. by apply (Hno pre m rest).
Qed.

(** X4. For a route with a chunk name and a plain-text pages directory,
    the lookup key is the chunk name with the first place where the
    directory and a slash stand cut out, letter case ignored, wherever
    that place is; it is what follows when the chunk name starts with
    them, and the chunk name itself when they stand nowhere.  The name of
    the route is not used. *)
Theorem page_key_of_chunk (route : gmap string value) (pagesDir cn : string) :
  plain_text pagesDir = true ->
  field route "chunkName" = VStr cn -> cn <> "" ->
  let p := (chars pagesDir ++ ["/"%char])%list in
  exists key,
    page_key (VObj route) (VStr pagesDir) = Normal (VStr key)
    /\ (forall m rest, chars cn = (m ++ rest)%list -> same_text m p ->
          chars key = rest)
    /\ ((exists pre m rest,
            chars cn = (pre ++ m ++ rest)%list /\ same_text m p
            /\ chars key = (pre ++ rest)%list
            /\ forall pre1 m1 rest1,
                 chars cn = (pre1 ++ m1 ++ rest1)%list -> same_text m1 p ->
                 List.length pre <= List.length pre1)
        \/ (key = cn
            /\ forall pre m rest,
                 chars cn = (pre ++ m ++ rest)%list -> ~ same_text m p)).
Proof.
  intros Hdir Hcn Hne p.
  exists (str (cut_first p (chars cn))). split; [|split].
  - unfold page_key. cbn [to_string].
    rewrite (RegExp_plain_ast (pagesDir ++ "/"))
      by (by apply plain_text_app).
    cbn [mbind completion_bind].
    rewrite (get_prop_obj route "chunkName") by reflexivity. rewrite Hcn.
    cbn [mbind completion_bind].
    replace (truthy (VStr cn)) with true by (simpl; by destruct cn).
    cbn [as_string mbind completion_bind].
    rewrite replace_empty_plain, chars_app. reflexivity.
  - intros m rest Hs Hm. by rewrite chars_str, Hs, cut_first_prefix.
  - rewrite chars_str.
    destruct (cut_first_cases p (chars cn))
      as [(pre & m & rest & Hs & Hm & Hcut & Hmin)|[Hcut Hno]].
    + left. exists pre, m, rest. by rewrite Hcut.
    + right. split; [by rewrite Hcut, str_chars|done].
Qed.

Lemma page_key_of_chunk_witness :
  page_key (VObj {[ "chunkName" := VStr "src/Pages/blog/post";
                    "name" := VStr "blog-post" ]}) (VStr "pages")
  = Normal (VStr "src/blog/post").
Proof.
  assert (Hcn : field {[ "chunkName" := VStr "src/Pages/blog/post";
                         "name" := VStr "blog-post" ]} "chunkName"
                = VStr "src/Pages/blog/post") by (vm_compute; reflexivity).
  destruct (page_key_of_chunk _ "pages" "src/Pages/blog/post" eq_refl Hcn
              ltac:(discriminate)) as (key & Hkey & _ & _).
  rewrite Hkey. vm_compute in Hkey. symmetry. exact Hkey.
Defined.

(** ** More on the page-options resolver *)

Lemma prop_string_is_string e k p :
  prop_string e k = Normal (Some p) -> is_string p = true.
Proof.
  destruct e as [v|[name|]]; unfold prop_string.
  - destruct (own_prop v k) as [[x|]| |]; cbn [mbind completion_bind];
      try discriminate.
    destruct (is_string x) eqn:Hx; [|discriminate]. by intros [= <-].
  - destruct (restricted k); [discriminate|].
    destruct (String.eqb k "name"); [|discriminate]. by intros [= <-].
  - discriminate.
Qed.

Lemma assign_strings k p acc :
  is_string p = true ->
  (forall k1 v, acc !! k1 = Some v -> is_string v = true) ->
  forall k1 v, assign k p acc !! k1 = Some v -> is_string v = true.
Proof.
  intros Hp Hacc k1 v. rewrite assign_lookup.
  destruct (_ && _); [by intros [= <-]|apply Hacc].
Qed.

Lemma set_path_strings pageOptions dflt acc locale paths :
  set_path pageOptions dflt acc locale = Normal paths ->
  (forall k v, acc !! k = Some v -> is_string v = true) ->
  forall k v, paths !! k = Some v -> is_string v = true.
Proof.
  unfold set_path. intros Hstep Hacc.
  destruct (prop_string pageOptions (to_key locale)) as [[p|]| |] eqn:Hown;
    cbn [mbind completion_bind] in Hstep; try discriminate.
  - injection Hstep as <-.
    apply assign_strings; [by eapply prop_string_is_string|exact Hacc].
  - destruct (prop_string pageOptions (to_key dflt)) as [[p|]| |] eqn:Hd;
      cbn [mbind completion_bind] in Hstep; try discriminate;
      injection Hstep as <-; [|exact Hacc].
    apply assign_strings; [by eapply prop_string_is_string|exact Hacc].
Qed.

Lemma foldM_set_path_strings pageOptions dflt kept acc paths :
  foldM (set_path pageOptions dflt) kept acc = Normal paths ->
  (forall k v, acc !! k = Some v -> is_string v = true) ->
  forall k v, paths !! k = Some v -> is_string v = true.
Proof.
  revert acc. induction kept as [|l kept IH]; intros acc; simpl.
  { by intros [= <-]. }
  destruct (set_path pageOptions dflt acc l) as [acc1| |] eqn:Hstep;
    cbn [mbind completion_bind]; try discriminate.
  intros Hfold Hacc. apply (IH _ Hfold).
  by apply (set_path_strings _ _ _ _ _ Hstep).
Qed.

(** X5. Whatever getPageOptions is given, when it returns an object, that
    object has the two fields locales and paths and nothing else, and every
    custom path in it is a string. *)
Theorem getPageOptions_paths_are_strings
    (route pages locales pagesDir dflt : value) (res : gmap string value) :
  getPageOptions route pages locales pagesDir dflt = Normal (VObj res) ->
  exists (ls : value) (paths : gmap string value),
    res = {[ "locales" := ls; "paths" := VObj paths ]}
    /\ forall k v, paths !! k = Some v -> is_string v = true.
Proof.
  unfold getPageOptions.
  destruct (getLocaleCodes locales) as [codes| |];
    cbn [mbind completion_bind]; try discriminate.
  destruct (page_key route pagesDir) as [key| |];
    cbn [mbind completion_bind]; try discriminate.
  destruct (lookup pages (to_key key)) as [pageOptions| |];
    cbn [mbind completion_bind]; try discriminate.
  destruct (entry_is_false pageOptions); [discriminate|].
  destruct (entry_truthy pageOptions); cbn [negb].
  - destruct (as_array codes) as [l| |]; cbn [mbind completion_bind];
      try discriminate.
    destruct (filterM _ l) as [kept| |]; cbn [mbind completion_bind];
      try discriminate.
    destruct (foldM _ kept ∅) as [paths| |] eqn:Hpaths;
      cbn [mbind completion_bind]; try discriminate.
    intros [= <-]. exists (VArr kept), paths. split; [reflexivity|].
    apply (foldM_set_path_strings _ _ _ _ _ Hpaths).
    intros k v Hk. by rewrite lookup_empty in Hk.
  - intros [= <-]. exists codes, ∅. split; [reflexivity|].
    intros k v Hk. by rewrite lookup_empty in Hk.
Qed.

Lemma getPageOptions_paths_are_strings_witness :
  exists (ls : value) (paths : gmap string value),
    ({[ "locales" := VArr [VStr "en"; VStr "de"];
        "paths" := VObj {[ "en" := VStr "/about-us" ]} ]}
     : gmap string value)
    = {[ "locales" := ls; "paths" := VObj paths ]}
    /\ forall k v, paths !! k = Some v -> is_string v = true.
Proof.
  apply (getPageOptions_paths_are_strings
    (VObj {[ "name" := VStr "about" ]})
    (VObj {[ "about" := VObj {[ "en" := VStr "/about-us"; "fr" := VBool false;
                                "de" := VNum 3 ]} ]})
    (VArr [VStr "en"; VStr "fr"; VStr "de"]) (VStr "pages") (VStr "it")).
  vm_compute; reflexivity.
Defined.

Lemma filter_all {A} (l : list A) : List.filter (fun _ => true) l = l.
Proof. induction l as [|x l IH]; [reflexivity|]. simpl. by rewrite IH. Qed.

Lemma foldl_keep {A S} (l : list A) (s : S) : foldl (fun s _ => s) s l = s.
Proof. induction l as [|x l IH]; [reflexivity|]. exact IH. Qed.



Lemma page_key_without_chunk (route : gmap string value) (pagesDir : string) :
  plain_text pagesDir = true ->
  truthy (field route "chunkName") = false ->
  page_key (VObj route) (VStr pagesDir) = Normal (field route "name").
Proof.
  intros Hdir Hcn. unfold page_key. cbn [to_string].
  rewrite (RegExp_plain_ast (pagesDir ++ "/")) by (by apply plain_text_app).
  cbn [mbind completion_bind].
  rewrite (get_prop_obj route "chunkName") by reflexivity.
  cbn [mbind completion_bind]. rewrite Hcn. by apply get_prop_obj.
Qed.

(** X7. For a route without a chunk name the pages directory plays no part:
    any two plain-text directories give the same result, with the page
    looked up under the name of the route. *)
Theorem getPageOptions_without_chunk (route : gmap string value)
    (pages locales dflt : value) (dir1 dir2 : string) :
  plain_text dir1 = true -> plain_text dir2 = true ->
  truthy (field route "chunkName") = false ->
  page_key (VObj route) (VStr dir1) = Normal (field route "name")
  /\ getPageOptions (VObj route) pages locales (VStr dir1) dflt
     = getPageOptions (VObj route) pages locales (VStr dir2) dflt.
Proof.
  intros H1 H2 Hcn. split; [by apply page_key_without_chunk|].
  unfold getPageOptions.
  by rewrite !page_key_without_chunk.
Qed.

Lemma getPageOptions_without_chunk_witness :
  getPageOptions (VObj {[ "name" := VStr "about" ]})
    (VObj {[ "about" := VBool false ]}) VUndef (VStr "pages") VUndef
  = getPageOptions (VObj {[ "name" := VStr "about" ]})
      (VObj {[ "about" := VBool false ]}) VUndef (VStr "src/views") VUndef.
Proof.
  assert (Hcn : truthy (field {[ "name" := VStr "about" ]} "chunkName")
                = false) by (vm_compute; reflexivity).
  exact (proj2 (getPageOptions_without_chunk _
    (VObj {[ "about" := VBool false ]}) VUndef VUndef "pages" "src/views"
    eq_refl eq_refl Hcn)).
Defined.

Lemma RegExp_quantifier q s :
  quantifier q = true -> Re.RegExp (String q s) = Throw SyntaxError.
Proof.
  unfold quantifier. intros H.
  apply orb_true_iff in H as [H|H]; [apply orb_true_iff in H as [H|H]|];
    apply Ascii.eqb_eq in H; subst q; reflexivity.
Qed.

(** X8. The pattern of the pages directory is compiled before the route is
    looked at: a directory that starts with a quantifier character makes
    getPageOptions throw a SyntaxError for every route and every pages
    map, also when the route has no chunk name. *)
Theorem getPageOptions_bad_directory
    (route pages locales dflt codes : value) (q : ascii) (dir : string) :
  getLocaleCodes locales = Normal codes ->
  quantifier q = true ->
  getPageOptions route pages locales (VStr (String q dir)) dflt
  = Throw SyntaxError.
Proof.
  intros Hc Hq. unfold getPageOptions, page_key. rewrite Hc.
  cbn [mbind completion_bind to_string].
  change (String q dir ++ "/") with (String q (dir ++ "/")).
  by rewrite (RegExp_quantifier q _ Hq).
Qed.

Lemma getPageOptions_bad_directory_witness :
  getPageOptions (VObj {[ "name" := VStr "about" ]}) (VObj ∅)
    (VArr [VStr "en"]) (VStr "+pages") (VStr "en")
  = Throw SyntaxError.
Proof.
  apply (getPageOptions_bad_directory _ _ _ _ (VArr [VStr "en"]) "+" "pages");
    reflexivity.
Defined.

(** ** More on the route-locale extractor *)





(** *** Generated route names are read back *)

Lemma unlike_same_text q t c :
  same_text t c ->
  forallb (fun a => negb (Ascii.eqb (Re.canon a) (Re.canon q))) c = true ->
  forallb (fun a => negb (Ascii.eqb (Re.canon a) (Re.canon q))) t = true.
Proof.
  unfold same_text. revert c. induction t as [|a t IH]; intros c Hs Hc;
    [reflexivity|].
  destruct c as [|b c]; [discriminate Hs|].
  simpl in Hs, Hc. injection Hs as Hab Hs.
  apply andb_true_iff in Hc as [Hb Hc].
  simpl. rewrite Hab, Hb. by apply (IH c).
Qed.

Lemma unlike_not_in q l1 x l2 :
  Re.canon x = Re.canon q ->
  forallb (fun a => negb (Ascii.eqb (Re.canon a) (Re.canon q)))
    (l1 ++ x :: l2) = true -> False.
Proof.
  intros Hx. rewrite forallb_app. simpl. rewrite Hx, Ascii.eqb_refl.
  rewrite andb_false_r. discriminate.
Qed.

Lemma first_some_unique {A B} (f : A -> option B) l a b :
  a ∈ l -> f a = Some b ->
  (forall a1 b1, a1 ∈ l -> f a1 = Some b1 -> b1 = b) ->
  first_some f l = Some b.
Proof.
  intros Hin Ha Huniq.
  destruct (first_some f l) as [b1|] eqn:Hf.
  - apply first_some_Some in Hf as (a1 & Hin1 & Ha1).
    by rewrite (Huniq a1 b1 Hin1 Ha1).
  - rewrite (first_some_None f l a Hf Hin) in Ha. discriminate.
Qed.

Lemma name_scan_hit sep suffix codes s t :
  name_match_at sep suffix codes s = Some t ->
  name_scan sep suffix codes s = Some t.
Proof. intros H. destruct s; simpl; by rewrite H. Qed.

Lemma name_match_generated q sep0 suffix codes code tail :
  let sep := q :: sep0 in
  let unlike := fun a => negb (Ascii.eqb (Re.canon a) (Re.canon q)) in
  code ∈ codes ->
  Forall (fun c => forallb unlike c = true) codes ->
  tail = [] \/ tail = (sep ++ suffix)%list ->
  name_match_at sep suffix codes (sep ++ code ++ tail) = Some code.
Proof.
  intros sep unlike Hin Hcodes Htail. unfold name_match_at.
  assert (Hsep : ci_strip sep (sep ++ code ++ tail) = Some (code ++ tail)%list).
  { apply ci_strip_Some. by exists sep. }
  rewrite Hsep.
  assert (Hcode : forallb unlike code = true).
  { by apply (proj1 (Forall_forall _ _) Hcodes). }
  apply (first_some_unique _ _ code); [exact Hin| |].
  { apply code_then_end_fits; [done|].
    destruct Htail as [->| ->]; [by left|by right]. }
  intros c1 t Hc1 Hfit.
  apply code_then_end_Some in Hfit as (rest & Heq & Ht & Hrest).
  assert (Hunlike : forallb unlike t = true).
  { apply (unlike_same_text q t c1 Ht).
    by apply (proj1 (Forall_forall _ _) Hcodes). }
  destruct Htail as [->| ->].
  - rewrite app_nil_r in Heq. destruct Hrest as [->|Hrest].
    + by rewrite app_nil_r in Heq.
    + destruct rest as [|r0 rest]; [discriminate Hrest|].
      injection Hrest as Hr0 _. subst code.
      by destruct (unlike_not_in q t r0 rest Hr0 Hcode).
  - change ((sep ++ suffix)%list) with (q :: (sep0 ++ suffix)%list) in Heq.
    apply app_eq_inv in Heq as [(k & Hcodek & Hrestk)|(k & Htk & Hk)].
    + subst rest. destruct Hrest as [Hnil|Hlen].
      { by destruct k. }
      apply same_text_length in Hlen.
      rewrite !length_app in Hlen. simpl in Hlen.
      rewrite length_app in Hlen.
      destruct k; [by rewrite app_nil_r in Hcodek|simpl in Hlen; lia].
    + destruct k as [|k0 k]; [by rewrite app_nil_r in Htk|].
      simpl in Hk. injection Hk as <- _. subst t.
      by destruct (unlike_not_in q code q k eq_refl Hunlike).
Qed.

Lemma name_scan_generated q sep0 suffix codes base code tail :
  let sep := q :: sep0 in
  let unlike := fun a => negb (Ascii.eqb (Re.canon a) (Re.canon q)) in
  forallb unlike base = true ->
  code ∈ codes ->
  Forall (fun c => forallb unlike c = true) codes ->
  tail = [] \/ tail = (sep ++ suffix)%list ->
  name_scan sep suffix codes (base ++ sep ++ code ++ tail) = Some code.
Proof.
  intros sep unlike Hbase Hin Hcodes Htail.
  induction base as [|a base IH].
  - apply name_scan_hit. by apply name_match_generated.
  - simpl in Hbase. apply andb_true_iff in Hbase as [Ha Hbase].
    rewrite <- app_comm_cons. cbn [name_scan].
    assert (Hno : name_match_at sep suffix codes
                    (a :: base ++ sep ++ code ++ tail) = None).
    { unfold name_match_at, sep. cbn [ci_strip].
      unfold unlike in Ha. apply negb_true_iff in Ha. by rewrite Ha. }
    rewrite Hno. by apply IH.
Qed.

(** X11. Route names built as base, separator and code, with or without a
    further separator and default suffix, are read back: for a non-empty
    plain-text separator whose first character stands neither in the base
    name nor in any code (letter case ignored), the extractor returns the
    code itself. *)
Theorem getLocaleFromRoute_reads_generated_names
    (route : gmap string value) (locales : value) (q : ascii)
    (sep0 suffix base code tail : string) (codes : list string) :
  let sep := String q sep0 in
  plain_text sep = true -> plain_text suffix = true ->
  forallb plain_text codes = true ->
  getLocaleCodes locales = Normal (VArr (map VStr codes)) ->
  free_of q base = true -> forallb (free_of q) codes = true ->
  code ∈ codes ->
  tail = "" \/ tail = sep ++ suffix ->
  field route "name" = VStr (base ++ sep ++ code ++ tail) ->
  getLocaleFromRoute (VObj route) (VStr sep) (VStr suffix) locales
  = Normal (VStr code).
Proof.
  intros sep Hsep Hsuf Hplain Hget Hbase Hcodes Hin Htail Hname.
  rewrite (getLocaleFromRoute_plain route sep suffix codes locales
             Hsep Hsuf Hplain Hget), Hname.
  replace (truthy (VStr (base ++ sep ++ code ++ tail))) with true
    by (destruct base; reflexivity).
  cbn [as_string mbind completion_bind].
  assert (Halt : alternatives codes = codes).
  { destruct codes; [by apply not_elem_of_nil in Hin|reflexivity]. }
  rewrite Halt. unfold locale_in_name.
  rewrite !chars_app. change (chars sep) with (q :: chars sep0).
  rewrite (name_scan_generated q (chars sep0) (chars suffix) (map chars codes)
             (chars base) (chars code) (chars tail)).
  - simpl. by rewrite str_chars.
  - exact Hbase.
  - by apply list_elem_of_fmap_2.
  - apply Forall_forall. intros c Hc.
    apply list_elem_of_fmap in Hc as (c0 & -> & Hc0).
    apply (proj1 (forallb_forall _ _) Hcodes). by apply list_elem_of_In.
  - destruct Htail as [->| ->]; [by left|right].
    rewrite chars_app. reflexivity.
Qed.

Lemma getLocaleFromRoute_reads_generated_names_witness :
  getLocaleFromRoute (VObj {[ "name" := VStr "blog-post___en-US___default" ]})
    (VStr "___") (VStr "default")
    (VArr [VObj {[ "code" := VStr "en" ]}; VObj {[ "code" := VStr "en-US" ]}])
  = Normal (VStr "en-US").
Proof.
  assert (Hget : getLocaleCodes
                   (VArr [VObj {[ "code" := VStr "en" ]};
                          VObj {[ "code" := VStr "en-US" ]}])
                 = Normal (VArr (map VStr ["en"; "en-US"])))
    by (vm_compute; reflexivity).
  assert (Hname : field {[ "name" := VStr "blog-post___en-US___default" ]}
                    "name"
                  = VStr ("blog-post" ++ String "_" "__" ++ "en-US"
                            ++ "___default"))
    by (vm_compute; reflexivity).
  refine (getLocaleFromRoute_reads_generated_names _ _ "_" "__" "default"
            "blog-post" "en-US" "___default" ["en"; "en-US"]
            eq_refl eq_refl eq_refl Hget eq_refl eq_refl _ _ Hname).
  - apply elem_of_cons. right. apply elem_of_cons. by left.
  - by right.
Defined.

(** ** More on the hostname and the domain-locale resolver *)

Lemma split_on_last c s cur :
  forallb (fun a => negb (Ascii.eqb a c)) s = true ->
  split_on c s cur = [(rev cur ++ s)%list].
Proof.
  revert cur. induction s as [|a s IH]; intros cur Hs; simpl.
  { by rewrite app_nil_r. }
  simpl in Hs. apply andb_true_iff in Hs as [Ha Hs].
  apply negb_true_iff in Ha. rewrite Ha, (IH _ Hs). simpl.
  by rewrite <- app_assoc.
Qed.

Lemma split_on_piece c s rest cur :
  forallb (fun a => negb (Ascii.eqb a c)) s = true ->
  split_on c (s ++ c :: rest) cur = (rev cur ++ s)%list :: split_on c rest [].
Proof.
  revert cur. induction s as [|a s IH]; intros cur Hs; simpl.
  { by rewrite Ascii.eqb_refl, app_nil_r. }
  simpl in Hs. apply andb_true_iff in Hs as [Ha Hs].
  apply negb_true_iff in Ha. rewrite Ha, (IH _ Hs). simpl.
  by rewrite <- app_assoc.
Qed.

(** X12. In a browser the hostname is the authority of the URL, port
    included: for a URL made of a scheme, two slashes, a host and nothing
    more or a path that starts with a slash, getHostname and getForwarded
    both return the host; for a URL without any slash they return
    undefined. *)
Theorem hostname_in_browser (ctx : context) (scheme host rest : string) :
  process_browser ctx = true ->
  (slash_free (chars scheme) = true -> slash_free (chars host) = true ->
   path_part rest = true ->
   window_location_href ctx = scheme ++ "//" ++ host ++ rest ->
   getHostname ctx = Normal (VStr host)
   /\ getForwarded ctx = Normal (VStr host))
  /\ (slash_free (chars (window_location_href ctx)) = true ->
      getHostname ctx = Normal VUndef /\ getForwarded ctx = Normal VUndef).
Proof.
  intros Hb. unfold getHostname, getForwarded. rewrite Hb. split.
  - intros Hscheme Hhost Hrest ->.
    assert (Hsplit : exists more,
      split "/" (scheme ++ "//" ++ host ++ rest)
      = VArr (VStr scheme :: VStr "" :: VStr host :: more)).
    { unfold split. rewrite !chars_app.
      change (chars "//") with ["/"%char; "/"%char].
      change (chars scheme ++ ["/"%char; "/"%char] ++ chars host
                ++ chars rest)%list
        with (chars scheme ++ "/"%char
                :: ([] ++ "/"%char :: (chars host ++ chars rest)))%list.
      rewrite (split_on_piece "/" (chars scheme)) by exact Hscheme.
      rewrite (split_on_piece "/" []) by reflexivity.
      destruct rest as [|a rest]; simpl in Hrest.
      - change (chars "") with (@nil ascii).
        rewrite (app_nil_r (chars host)).
        rewrite split_on_last by exact Hhost.
        exists []. cbn [map rev app]. rewrite !app_nil_l, !str_chars.
        reflexivity.
      - apply Ascii.eqb_eq in Hrest as ->.
        change (chars (String "/" rest)) with ("/"%char :: chars rest).
        rewrite split_on_piece by exact Hhost.
        eexists. cbn [map rev app]. rewrite !app_nil_l, !str_chars.
        reflexivity. }
    destruct Hsplit as [more ->]. by split.
  - intros Hno. unfold split.
    rewrite split_on_last by exact Hno. by split.
Qed.

Lemma hostname_in_browser_witness :
  getHostname (Context true "https://fr.example.com:8080/a/b" VUndef VUndef)
  = Normal (VStr "fr.example.com:8080").
Proof.
  apply (proj1 (hostname_in_browser
    (Context true "https://fr.example.com:8080/a/b" VUndef VUndef)
    "https:" "fr.example.com:8080" "/a/b" eq_refl));
    reflexivity.
Defined.

(** X13. A locale list made of codes only has no domains: getLocaleDomain
    returns null for every hostname. *)
Theorem getLocaleDomain_codes_only (ctx : context)
    (i18n : gmap string value) (codes : list string) (h : value) :
  get_prop (app ctx) "i18n" = Normal (VObj i18n) ->
  i18n !! "locales" = Some (VArr (map VStr codes)) ->
  (if truthy (field i18n "forwardedHost") then getForwarded ctx
   else getHostname ctx) = Normal h ->
  getLocaleDomain ctx = Normal VNull.
Proof.
  intros Happ Hloc Hhost. unfold getLocaleDomain.
  rewrite Happ. cbn [mbind completion_bind].
  rewrite !get_prop_obj by reflexivity. cbn [mbind completion_bind].
  rewrite Hhost. cbn [mbind completion_bind].
  destruct (truthy h) eqn:Ht; [|reflexivity].
  unfold field at 1. rewrite Hloc.
  cbn [default from_option id as_array mbind completion_bind].
  assert (Hfind : findM (fun l => d ← get_prop l LOCALE_DOMAIN_KEY;
                                  strict_eq d h) (map VStr codes)
                  = Normal None).
  { clear Hloc. induction codes as [|c codes IH]; [reflexivity|].
    cbn [map findM].
    change (get_prop (VStr c) LOCALE_DOMAIN_KEY) with (Normal VUndef).
    cbn [mbind completion_bind].
    replace (strict_eq VUndef h) with (Normal false)
      by (by destruct h).
    cbn [mbind completion_bind]. exact IH. }
  by rewrite Hfind.
Qed.

Lemma getLocaleDomain_codes_only_witness :
  getLocaleDomain
    (Context false ""
       (VObj {[ "headers" := VObj {[ "host" := VStr "fr.example.com" ]} ]})
       (VObj {[ "i18n" := VObj {[ "locales" :=
                                     VArr [VStr "en"; VStr "fr"] ]} ]}))
  = Normal VNull.
Proof.
  refine (getLocaleDomain_codes_only _
    {[ "locales" := VArr [VStr "en"; VStr "fr"] ]} ["en"; "fr"]
    (VStr "fr.example.com") _ _ _); vm_compute; reflexivity.
Defined.

(** ** More on the store synchronizer *)



Lemma log_grows {A} (l more : list A) (x : A) : (l ++ x :: more)%list <> l.
Proof.
  intros H. apply (f_equal List.length) in H.
  rewrite length_app in H. simpl in H. lia.
Qed.



(** ** Letter case of the configuration *)

Lemma ci_strip_same_text p1 p2 s :
  same_text p1 p2 -> ci_strip p1 s = ci_strip p2 s.
Proof.
  unfold same_text. revert p2 s. induction p1 as [|c1 p1 IH]; intros p2 s H.
  { by destruct p2. }
  destruct p2 as [|c2 p2]; [discriminate H|].
  simpl in H. injection H as Hc Hp. simpl.
  destruct s as [|a s]; [reflexivity|]. rewrite Hc.
  destruct (Ascii.eqb (Re.canon a) (Re.canon c2)); [by apply IH|reflexivity].
Qed.

Lemma same_text_app a1 a2 b1 b2 :
  same_text a1 a2 -> same_text b1 b2 -> same_text (a1 ++ b1) (a2 ++ b2).
Proof. unfold same_text. intros Ha Hb. by rewrite !map_app, Ha, Hb. Qed.

Lemma first_some_Forall2 {A B} (R : A -> A -> Prop) (f1 f2 : A -> option B)
    l1 l2 :
  (forall a1 a2, R a1 a2 -> f1 a1 = f2 a2) ->
  Forall2 R l1 l2 -> first_some f1 l1 = first_some f2 l2.
Proof.
  intros Hf. induction 1 as [|a1 a2 l1 l2 Ha _ IH]; [reflexivity|].
  simpl. by rewrite (Hf a1 a2 Ha), IH.
Qed.

Lemma name_scan_same_text sep1 sep2 suffix1 suffix2 codes1 codes2 s :
  same_text sep1 sep2 -> same_text suffix1 suffix2 ->
  Forall2 same_text codes1 codes2 ->
  name_scan sep1 suffix1 codes1 s = name_scan sep2 suffix2 codes2 s.
Proof.
  intros Hsep Hsuf Hcodes.
  assert (Hat : forall tail, name_match_at sep1 suffix1 codes1 tail
                             = name_match_at sep2 suffix2 codes2 tail).
  { intros tail. unfold name_match_at.
    rewrite (ci_strip_same_text sep1 sep2 tail Hsep).
    destruct (ci_strip sep2 tail) as [r1|]; [|reflexivity].
    apply (first_some_Forall2 same_text); [|exact Hcodes].
    intros c1 c2 Hc. unfold code_then_end, ci_is.
    rewrite (ci_strip_same_text c1 c2 r1 Hc), (same_text_length c1 c2 Hc).
    destruct (ci_strip c2 r1) as [r2|]; [|reflexivity].
    by rewrite (ci_strip_same_text (sep1 ++ suffix1) (sep2 ++ suffix2) r2
                  (same_text_app _ _ _ _ Hsep Hsuf)). }
  induction s as [|a s IH]; cbn [name_scan]; rewrite Hat; [reflexivity|].
  by rewrite IH.
Qed.

Lemma path_match_same_text codes1 codes2 s :
  Forall2 same_text codes1 codes2 ->
  path_match codes1 s = path_match codes2 s.
Proof.
  intros Hcodes. unfold path_match.
  destruct (ci_strip ["/"%char] s) as [r1|]; [|reflexivity].
  apply (first_some_Forall2 same_text); [|exact Hcodes].
  intros c1 c2 Hc. unfold code_then_slash.
  by rewrite (ci_strip_same_text c1 c2 r1 Hc), (same_text_length c1 c2 Hc).
Qed.

Lemma getLocaleCodes_strings codes :
  getLocaleCodes (VArr (map VStr codes)) = Normal (VArr (map VStr codes)).
Proof. by destruct codes. Qed.

(** X16. The letter case of the configuration does not matter: two
    plain-text configurations whose separators, suffixes and codes differ
    in letter case at most give the same result on every route. *)
Theorem getLocaleFromRoute_configuration_case
    (route : gmap string value) (sep1 sep2 suffix1 suffix2 : string)
    (codes1 codes2 : list string) :
  plain_text sep1 = true -> plain_text suffix1 = true ->
  forallb plain_text codes1 = true ->
  plain_text sep2 = true -> plain_text suffix2 = true ->
  forallb plain_text codes2 = true ->
  same_text (chars sep1) (chars sep2) ->
  same_text (chars suffix1) (chars suffix2) ->
  Forall2 (fun c1 c2 => same_text (chars c1) (chars c2)) codes1 codes2 ->
  getLocaleFromRoute (VObj route) (VStr sep1) (VStr suffix1)
    (VArr (map VStr codes1))
  = getLocaleFromRoute (VObj route) (VStr sep2) (VStr suffix2)
      (VArr (map VStr codes2)).
Proof.
  intros Hp1 Hs1 Hc1 Hp2 Hs2 Hc2 Hsep Hsuf Hcodes.
  rewrite (getLocaleFromRoute_plain route sep1 suffix1 codes1 _ Hp1 Hs1 Hc1
             (getLocaleCodes_strings codes1)).
  rewrite (getLocaleFromRoute_plain route sep2 suffix2 codes2 _ Hp2 Hs2 Hc2
             (getLocaleCodes_strings codes2)).
  assert (Halt : Forall2 same_text (map chars (alternatives codes1))
                   (map chars (alternatives codes2))).
  { assert (Hmap : forall l1 l2,
      Forall2 (fun c1 c2 => same_text (chars c1) (chars c2)) l1 l2 ->
      Forall2 same_text (map chars l1) (map chars l2)).
    { induction 1; by constructor. }
    destruct Hcodes as [|c1 c2 l1 l2 Hc Hl]; [by repeat constructor|].
    apply (Hmap (c1 :: l1) (c2 :: l2)). by constructor. }
  unfold locale_in_name, locale_in_path.
  destruct (truthy (field route "name")).
  - destruct (as_string (field route "name")) as [name| |];
      cbn [mbind completion_bind]; try reflexivity.
    by rewrite (name_scan_same_text _ _ _ _ _ _ (chars name) Hsep Hsuf Halt).
  - destruct (truthy (field route "path")); [|reflexivity].
    destruct (as_string (field route "path")) as [path| |];
      cbn [mbind completion_bind]; try reflexivity.
    by rewrite (path_match_same_text _ _ (chars path) Halt).
Qed.

Lemma getLocaleFromRoute_configuration_case_witness :
  getLocaleFromRoute (VObj {[ "name" := VStr "about-fr" ]})
    (VStr "-") (VStr "default") (VArr (map VStr ["en"; "fr"]))
  = getLocaleFromRoute (VObj {[ "name" := VStr "about-fr" ]})
      (VStr "-") (VStr "DEFAULT") (VArr (map VStr ["EN"; "FR"])).
Proof.
  apply (getLocaleFromRoute_configuration_case
    {[ "name" := VStr "about-fr" ]} "-" "-" "default" "DEFAULT"
    ["en"; "fr"] ["EN"; "FR"]); try reflexivity.
  repeat constructor.
Defined.
